(** * RedisSet: the schema-aware set collection of redis-tance

    A shallow embedding of [lib/Primitives/RedisSet.js].  JavaScript
    objects live in a heap and are handled through references, so that the
    in-place stamping done by [prepare] and the identity-based membership
    of JavaScript [Set]s are visible.  The store client ([tance]) is an
    in-memory model of the store's set commands that also records every
    command it is sent. *)

From Stdlib Require Import ZArith Ascii String List Bool Lia DecimalString.
From stdpp Require Import base option list strings gmap.

Local Open Scope string_scope.
Local Open Scope Z_scope.

(** ** JavaScript strings *)

Module JsString.

(** [String.prototype.toLowerCase], on the ASCII range the type names of
    the schemas are written in: the letters A to Z are lower-cased, every
    other character is left as it is.  Outside ASCII the function of the
    language does more, and what is proved of it here is stated for ASCII
    strings ([ascii_only]). *)
Definition lower_ascii (c : ascii) : ascii :=
  let n := nat_of_ascii c in
  if (Nat.leb 65 n && Nat.leb n 90)%bool then ascii_of_nat (n + 32) else c.

Fixpoint toLowerCase (s : string) : string :=
  match s with
  | EmptyString => EmptyString
  | String c r => String (lower_ascii c) (toLowerCase r)
  end.

(** [s.slice(0, n)]: the first [n] code units of [s]; on an ASCII string
    a code unit is a character. *)
Fixpoint slice0 (n : nat) (s : string) : string :=
  match n, s with
  | S k, String c r => String c (slice0 k r)
  | _, _ => EmptyString
  end.

(** [o || d] for a possibly absent string [o]. *)
Definition or_else (o : option string) (d : string) : string :=
  match o with
  | Some s => if String.eqb s EmptyString then d else s
  | None => d
  end.

End JsString.

(** ** JavaScript values and the object heap *)

(** The value of a document field. *)
Inductive JVal : Type :=
| JNull
| JNum (n : Z)
| JStr (s : string).

(** An object: its own properties, in insertion order. *)
Definition Obj : Type := list (string * JVal).

(** A value as the program passes it around: objects by reference. *)
Inductive Val : Type :=
| VNull
| VNum (n : Z)
| VStr (s : string)
| VObj (l : nat).

(** A value together with the contents it refers to. *)
Inductive Doc : Type :=
| DNull
| DNum (n : Z)
| DStr (s : string)
| DObj (o : Obj).

#[global] Instance JVal_eq_dec : EqDecision JVal.
Proof. solve_decision. Defined.
#[global] Instance Val_eq_dec : EqDecision Val.
Proof. solve_decision. Defined.
#[global] Instance Doc_eq_dec : EqDecision Doc.
Proof. solve_decision. Defined.

Module Object.

(** [o[k]]; [None] is [undefined]. *)
Fixpoint get (k : string) (o : Obj) : option JVal :=
  match o with
  | [] => None
  | (k', v) :: r => if String.eqb k k' then Some v else get k r
  end.

(** [o[k] = v]: an existing property keeps its place, a new one is
    appended. *)
Fixpoint set (k : string) (v : JVal) (o : Obj) : Obj :=
  match o with
  | [] => [(k, v)]
  | (k', v') :: r =>
      if String.eqb k k' then (k', v) :: r else (k', v') :: set k v r
  end.

(** [o[k] == null]: the property is absent or null. *)
Definition is_nullish (k : string) (o : Obj) : bool :=
  match get k o with
  | None | Some JNull => true
  | Some _ => false
  end.

End Object.

(** ** Errors and results *)

Inductive Error : Type :=
| DocumentValidationError (msg : string)
| CrossSlotError (msg : string)
| MigrationError
| SyntaxError
| TypeError
| PlainError (msg : string).

Inductive Result (A : Type) : Type :=
| Ok (a : A)
| Throw (e : Error).
Arguments Ok {A} a.
Arguments Throw {A} e.

#[global] Instance Error_eq_dec : EqDecision Error.
Proof. solve_decision. Defined.

Definition is_DocumentValidationError {A} (r : Result A) : bool :=
  match r with Throw (DocumentValidationError _) => true | _ => false end.

Definition is_CrossSlotError {A} (r : Result A) : bool :=
  match r with Throw (CrossSlotError _) => true | _ => false end.

(** ** The store client

    [lib/Tance] is a thin pass-through to the store's native commands. *)

Module Tance.

(** A command as it is sent to the store. *)
Inductive Command : Type :=
| Sadd (key : string) (members : list string)
| Smembers (key : string)
| Srandmember (key : string) (n : option Z)
| Srem (key : string) (member : string)
| Sismember (key : string) (member : string)
| Scard (key : string)
| Sunion (keys : list string)
| Sunionstore (dest : string) (keys : list string)
| Sinter (keys : list string)
| Sinterstore (dest : string) (keys : list string)
| Sdiff (keys : list string)
| Sdiffstore (dest : string) (keys : list string)
| Del (key : string)
| Expire (key : string) (seconds : Z).

(** A handle on a client connection. *)
Inductive Client : Type := Connection (n : nat).

End Tance.

#[global] Instance Command_eq_dec : EqDecision Tance.Command.
Proof. solve_decision. Defined.

(** The world the program runs in: the object heap, the contents of the
    store, the commands sent so far (oldest first), the random source
    behind [uuid()] with the number of draws made, and the store's choice
    function for [srandmember]. *)
Record World : Type := mkWorld {
  heap : list Obj;
  store : gmap string (gset string);
  log : list Tance.Command;
  draws : nat;
  uuids : nat -> string;
  sample : gset string -> option Z -> list string
}.

(** Computations: a result and the world after it; a throw keeps the
    effects that came before it. *)
Definition M (A : Type) : Type := World -> Result A * World.

Definition ret {A} (a : A) : M A := fun w => (Ok a, w).

Definition throw {A} (e : Error) : M A := fun w => (Throw e, w).

Definition bind {A B} (m : M A) (f : A -> M B) : M B :=
  fun w =>
    match m w with
    | (Ok a, w') => f a w'
    | (Throw e, w') => (Throw e, w')
    end.

Notation "'let*' x ':=' m 'in' k" := (bind m (fun x => k))
  (at level 10, x name, m at level 100, k at level 200).

(** [xs.map(f)] for an [f] with effects: left to right, stopping at the
    first throw. *)
Fixpoint mapM {A B} (f : A -> M B) (xs : list A) : M (list B) :=
  match xs with
  | [] => ret []
  | x :: r => let* y := f x in let* ys := mapM f r in ret (y :: ys)
  end.

(** A call to an async function whose promise is dropped: the call runs,
    its result and its rejection are lost. *)
Definition detached {A} (m : M A) : M unit :=
  fun w => (Ok tt, snd (m w)).

Fixpoint forEach {A B} (f : A -> M B) (xs : list A) : M unit :=
  match xs with
  | [] => ret tt
  | x :: r => let* _ := f x in forEach f r
  end.

Module Heap.

Definition read (l : nat) : M Obj :=
  fun w =>
    match heap w !! l with
    | Some o => (Ok o, w)
    | None => (Throw TypeError, w)
    end.

Definition write (l : nat) (o : Obj) : M unit :=
  fun w =>
    (Ok tt, mkWorld (<[l := o]> (heap w)) (store w) (log w) (draws w)
                    (uuids w) (sample w)).

(** A new object. *)
Definition alloc (o : Obj) : M nat :=
  fun w =>
    (Ok (length (heap w)),
     mkWorld (heap w ++ [o]) (store w) (log w) (draws w) (uuids w)
             (sample w)).

(** The contents a value stands for in heap [h]. *)
Definition resolve (h : list Obj) (v : Val) : option Doc :=
  match v with
  | VNull => Some DNull
  | VNum n => Some (DNum n)
  | VStr s => Some (DStr s)
  | VObj l => DObj <$> h !! l
  end.

Definition deref (v : Val) : M Doc :=
  fun w =>
    match resolve (heap w) v with
    | Some d => (Ok d, w)
    | None => (Throw TypeError, w)
    end.

(** A value for freshly built contents. *)
Definition fresh (d : Doc) : M Val :=
  match d with
  | DNull => ret VNull
  | DNum n => ret (VNum n)
  | DStr s => ret (VStr s)
  | DObj o => let* l := alloc o in ret (VObj l)
  end.

End Heap.

(** [uuid()]. *)
Definition uuid : M string :=
  fun w =>
    (Ok (uuids w (draws w)),
     mkWorld (heap w) (store w) (log w) (S (draws w)) (uuids w) (sample w)).

(** The commands of the store client, [this.tance.sadd] and the others.
    A reply that is a set is listed as [elements] lists it; the store
    promises no order, and what one read returns is compared with what
    another returns up to order only. *)
Module Store.

(** The set stored at a key; a key that does not exist holds the empty
    set. *)
Definition at_key (s : gmap string (gset string)) (k : string)
  : gset string :=
  default ∅ (s !! k).

Definition union_of (s : gmap string (gset string)) (keys : list string)
  : gset string :=
  foldr (fun k acc => at_key s k ∪ acc) ∅ keys.

Definition inter_of (s : gmap string (gset string)) (keys : list string)
  : gset string :=
  match keys with
  | [] => ∅
  | k :: r => foldl (fun acc k' => acc ∩ at_key s k') (at_key s k) r
  end.

Definition diff_of (s : gmap string (gset string)) (keys : list string)
  : gset string :=
  match keys with
  | [] => ∅
  | k :: r => at_key s k ∖ union_of s r
  end.

(** Modelled from the spec: the external KV client, which is not among the
    sources.  Each command is recorded, acts on the store as the store's
    native set command does, and resolves to the store's reply. *)
Definition command {A} (c : Tance.Command)
    (f : gmap string (gset string) -> gmap string (gset string))
    (reply : World -> A) : M A :=
  fun w =>
    (Ok (reply w),
     mkWorld (heap w) (f (store w)) (log w ++ [c]) (draws w) (uuids w)
             (sample w)).

Definition sadd (key : string) (members : list string) : M Z :=
  command (Tance.Sadd key members)
    (fun s => <[key := at_key s key ∪ list_to_set members]> s)
    (fun w => Z.of_nat
                (size (list_to_set members ∖ at_key (store w) key
                       : gset string))).

Definition smembers (key : string) : M (list string) :=
  command (Tance.Smembers key) (fun s => s)
    (fun w => elements (at_key (store w) key)).

Definition srandmember (key : string) (n : option Z) : M (list string) :=
  command (Tance.Srandmember key n) (fun s => s)
    (fun w => sample w (at_key (store w) key) n).

Definition srem (key : string) (member : string) : M Z :=
  command (Tance.Srem key member)
    (fun s => <[key := at_key s key ∖ {[member]}]> s)
    (fun w => if decide (member ∈ at_key (store w) key) then 1 else 0).

Definition sismember (key : string) (member : string) : M Z :=
  command (Tance.Sismember key member) (fun s => s)
    (fun w => if decide (member ∈ at_key (store w) key) then 1 else 0).

Definition scard (key : string) : M Z :=
  command (Tance.Scard key) (fun s => s)
    (fun w => Z.of_nat (size (at_key (store w) key))).

Definition sunion (keys : list string) : M (list string) :=
  command (Tance.Sunion keys) (fun s => s)
    (fun w => elements (union_of (store w) keys)).

Definition sunionstore (dest : string) (keys : list string) : M Z :=
  command (Tance.Sunionstore dest keys)
    (fun s => <[dest := union_of s keys]> s)
    (fun w => Z.of_nat (size (union_of (store w) keys))).

Definition sinter (keys : list string) : M (list string) :=
  command (Tance.Sinter keys) (fun s => s)
    (fun w => elements (inter_of (store w) keys)).

Definition sinterstore (dest : string) (keys : list string) : M Z :=
  command (Tance.Sinterstore dest keys)
    (fun s => <[dest := inter_of s keys]> s)
    (fun w => Z.of_nat (size (inter_of (store w) keys))).

Definition sdiff (keys : list string) : M (list string) :=
  command (Tance.Sdiff keys) (fun s => s)
    (fun w => elements (diff_of (store w) keys)).

Definition sdiffstore (dest : string) (keys : list string) : M Z :=
  command (Tance.Sdiffstore dest keys)
    (fun s => <[dest := diff_of s keys]> s)
    (fun w => Z.of_nat (size (diff_of (store w) keys))).

Definition del (key : string) : M Z :=
  command (Tance.Del key) (fun s => delete key s)
    (fun w => if decide (is_Some (store w !! key)) then 1 else 0).

Definition expire (key : string) (seconds : Z) : M Z :=
  command (Tance.Expire key seconds) (fun s => s)
    (fun w => if decide (is_Some (store w !! key)) then 1 else 0).

End Store.

(** ** Schemas *)

Module Schema.

(** What [RedisSet] uses of a schema object.  [className] is
    [schema.constructor.name]; a [None] from [deserializationFn] or
    [upgrade] is a throw of that function ([SyntaxError] from decoding,
    [MigrationError] from upgrading). *)
Record t : Type := mk {
  className : string;
  type : string;
  currentVersion : Z;
  isValid : Doc -> bool;
  errors : Doc -> string;
  serializationFn : Doc -> string;
  deserializationFn : string -> option Doc;
  upgrade : Doc -> option Doc
}.

End Schema.

(** Modelled from the spec: the schema chain ("Skeema"), whose source is
    not among the files; only its test is.  A chain is an ordered sequence
    of schema versions, the version number of a version being its 1-based
    position; [upgrade] applies the upgrade functions of the versions after
    the document's own, stamps the version after each step and checks the
    outcome against the target version. *)
Module Skeema.

(** Modelled from the spec: the types a schema description gives its
    properties, as far as the schemas of the test suite use them. *)
Inductive JType : Type := TString | TInteger.

(** Modelled from the spec: a schema description, an object with
    [properties] and [required]. *)
Record Definition_ : Type := mkDefinition {
  properties : list (string * JType);
  required : list string
}.

(** Modelled from the spec: a schema version, its description and its
    upgrade function from the version before.  Its version number is its
    1-based position in the chain. *)
Record SchemaVersion : Type := mkVersion {
  definition : Definition_;
  upgradeFn : Doc -> Doc
}.

(** Modelled from the spec: the chain, with the type name and the encoding
    a collection needs of it. *)
Record t : Type := mk {
  type : string;
  versions : list SchemaVersion;
  serializationFn : Doc -> string;
  deserializationFn : string -> option Doc
}.

(** Modelled from the spec: the number of the version added last. *)
Definition currentVersion (c : t) : Z := Z.of_nat (length (versions c)).

(** Modelled from the spec: [addVersion] appends a version, numbered
    [currentVersion + 1]. *)
Definition addVersion (d : Definition_) (f : Doc -> Doc) (c : t) : t :=
  mk (type c) (versions c ++ [mkVersion d f]) (serializationFn c)
     (deserializationFn c).

Definition has_type (ty : JType) (v : JVal) : bool :=
  match ty, v with
  | TString, JStr _ => true
  | TInteger, JNum _ => true
  | _, _ => false
  end.

(** Modelled from the spec: the external validator, on descriptions made
    of [properties] and [required].  The outcome is the list of failed
    constraints. *)
Definition violations (d : Definition_) (doc : Doc) : list string :=
  match doc with
  | DObj o =>
      flat_map (fun k => match Object.get k o with
                         | Some _ => []
                         | None => ["should have required property " +:+ k]
                         end) (required d)
      ++ flat_map (fun p => match Object.get (fst p) o with
                            | Some v => if has_type (snd p) v then []
                                        else [fst p +:+ " has the wrong type"]
                            | None => []
                            end) (properties d)
  | _ => ["should be object"]
  end.

Definition validates (d : Definition_) (doc : Doc) : bool :=
  match violations d doc with [] => true | _ => false end.

(** [doc.version], when it is a number. *)
Definition version_of (doc : Doc) : option Z :=
  match doc with
  | DObj o => match Object.get "version" o with
              | Some (JNum n) => Some n
              | _ => None
              end
  | _ => None
  end.

(** [doc.version = k]. *)
Definition stamp (k : Z) (doc : Doc) : Doc :=
  match doc with
  | DObj o => DObj (Object.set "version" (JNum k) o)
  | _ => doc
  end.

(** The version numbered [k]. *)
Definition version_at (c : t) (k : Z) : option SchemaVersion :=
  if 1 <=? k then versions c !! Z.to_nat (k - 1) else None.

(** Modelled from the spec: the version a document is validated against,
    the one its [version] names if it has one, else the latest. *)
Definition selected (c : t) (doc : Doc) : option SchemaVersion :=
  match doc with
  | DObj o => match Object.get "version" o with
              | None | Some JNull => version_at c (currentVersion c)
              | Some (JNum n) => version_at c n
              | Some (JStr _) => None
              end
  | _ => version_at c (currentVersion c)
  end.

(** Modelled from the spec: [isValid] returns a boolean and never
    throws. *)
Definition isValid (c : t) (doc : Doc) : bool :=
  match selected c doc with
  | Some sv => validates (definition sv) doc
  | None => false
  end.

(** Modelled from the spec: [errors], the failed constraints as text. *)
Definition errors (c : t) (doc : Doc) : string :=
  match selected c doc with
  | Some sv => String.concat ", " (violations (definition sv) doc)
  | None => "unknown version"
  end.

(** Modelled from the spec: the upgrade steps for the versions [vs], the
    first of them numbered [k].  Each applies the version's upgrade
    function, stamps the number and validates the outcome against the
    version; a failed validation ends the upgrade ([None], a
    MigrationError). *)
Fixpoint migrate (vs : list SchemaVersion) (k : Z) (doc : Doc)
  : option Doc :=
  match vs with
  | [] => Some doc
  | sv :: r =>
      let doc' := stamp k (upgradeFn sv doc) in
      if validates (definition sv) doc' then migrate r (k + 1) doc'
      else None
  end.

(** Modelled from the spec: [upgrade] fails when [doc.version] is absent,
    below 1 or above the current version, and runs the steps of the later
    versions otherwise. *)
Definition upgrade (c : t) (doc : Doc) : option Doc :=
  match version_of doc with
  | Some v =>
      if (1 <=? v) && (v <=? currentVersion c)
      then migrate (drop (Z.to_nat v) (versions c)) (v + 1) doc
      else None
  | None => None
  end.

(** Modelled from the spec: the chain as the schema object a collection is
    given; its class is the one [prepare] looks for. *)
Definition MigratingSchema (c : t) : Schema.t :=
  Schema.mk "MigratingSchema" (type c) (currentVersion c) (isValid c)
            (errors c) (serializationFn c) (deserializationFn c) (upgrade c).

End Skeema.

(** ** RedisSet *)

Module RedisSet.

(** The handle. *)
Record t : Type := mk {
  tance : Tance.Client;
  schema : Schema.t;
  namespace : string;
  id : string;
  expirySeconds : option Z
}.

(** The constructor's argument object; [None] is an absent property. *)
Record Options : Type := mkOptions {
  opt_tance : option Tance.Client;
  opt_id : option string;
  opt_schema : option Schema.t;
  opt_namespace : option string;
  opt_expirySeconds : option Z
}.

(** What [add] is given: one document, or an array of them. *)
Inductive Input : Type :=
| One (doc : Val)
| Many (docs : list Val).

(** An operand of a group operation: a raw key or a handle. *)
Inductive Operand : Type :=
| Key (k : string)
| Handle (set : t).

Definition lift {A} (r : Result A) : M A := fun w => (r, w).

Definition lift_option {A} (e : Error) (o : option A) : M A :=
  match o with
  | Some a => ret a
  | None => throw e
  end.

(** [newKey], on the [schema] and [namespace] that [this] holds when it is
    called. *)
Definition newKey (this_schema : option Schema.t)
    (this_namespace : option string) : M string :=
  let type :=
    match this_schema with
    | Some s => JsString.slice0 18 (JsString.toLowerCase (Schema.type s))
    | None => "string"
    end in
  let namespace :=
    match this_namespace with
    | Some n => n
    | None => "default"
    end in
  let* u := uuid in
  ret ("set-{" +:+ type +:+ "-" +:+ namespace +:+ "}-" +:+ u).

Definition refreshExpiry (this : t) : M unit :=
  match expirySeconds this with
  | Some n => if n =? 0 then ret tt
              else let* _ := Store.expire (id this) n in ret tt
  | None => ret tt
  end.

(** The stamping [prepare] does on an object for a version-aware schema. *)
Definition stamped (this : t) (o : Obj) : Obj :=
  let o1 :=
    if Object.is_nullish "id" o
       || bool_decide (Object.get "id" o = Some (JStr EmptyString))
    then Object.set "id" (JStr (id this)) o else o in
  let o2 := Object.set "type" (JStr (Schema.type (schema this))) o1 in
  Object.set "version" (JNum (Schema.currentVersion (schema this))) o2.

(** [prepare]: reading or writing a property of [null] throws, and so does
    creating one on a number or a string in strict mode. *)
Definition prepare (this : t) (doc : Val) : M string :=
  let* _ :=
    if String.eqb (Schema.className (schema this)) "MigratingSchema" then
      match doc with
      | VObj l => let* o := Heap.read l in Heap.write l (stamped this o)
      | _ => throw TypeError
      end
    else ret tt in
  let* d := Heap.deref doc in
  if negb (Schema.isValid (schema this) d) then
    throw (DocumentValidationError
             ("Can't create new object, schema error: "
              +:+ Schema.errors (schema this) d))
  else ret (Schema.serializationFn (schema this) d).

Definition postpare (this : t) (serializedDoc : option string) : M Val :=
  match serializedDoc with
  | None => ret VNull
  | Some s =>
      let* doc := lift_option SyntaxError
                    (Schema.deserializationFn (schema this) s) in
      let* doc' := lift_option MigrationError
                     (Schema.upgrade (schema this) doc) in
      Heap.fresh doc'
  end.

Definition add (this : t) (doc : Input) : M Input :=
  match doc with
  | One VNull => throw (DocumentValidationError "Can't create null object.")
  | Many docs =>
      let* ms := mapM (prepare this) docs in
      let* _ := Store.sadd (id this) ms in
      let* _ := refreshExpiry this in
      ret doc
  | One d =>
      let* m := prepare this d in
      let* _ := Store.sadd (id this) [m] in
      let* _ := refreshExpiry this in
      ret doc
  end.

Definition members (this : t) : M (list Val) :=
  let* membs := Store.smembers (id this) in
  mapM (fun x => postpare this (Some x)) membs.

Definition randmember (this : t) (n : option Z) : M (list Val) :=
  let* membs := Store.srandmember (id this) n in
  mapM (fun x => postpare this (Some x)) membs.

Definition rem (this : t) (doc : Val) : M Val :=
  let* m := prepare this doc in
  let* _ := Store.srem (id this) m in
  let* _ := refreshExpiry this in
  ret doc.

Definition get (this : t) : M (list Val) := members this.

Definition set (this : t) (doc : Input) : M Input := add this doc.

(** [new Set(list)]: the elements in insertion order, each once.  Numbers,
    strings and [null] are the same when equal, objects when they are the
    same object. *)
Fixpoint Set_from (seen : list Val) (l : list Val) : list Val :=
  match l with
  | [] => []
  | x :: r =>
      if bool_decide (x ∈ seen) then Set_from seen r
      else x :: Set_from (x :: seen) r
  end.

Definition Set_has (s : list Val) (x : Val) : bool := bool_decide (x ∈ s).

(** [JSON.parse(JSON.stringify(x))] on one element of the list: objects
    are rebuilt. *)
Definition json_copy (x : Val) : M Val :=
  let* d := Heap.deref x in Heap.fresh d.

(** [modify].  The two arrow functions it maps have a block body without
    [return], so each [rem] and [add] is called and its promise dropped:
    [promises] holds only [undefined] and [Promise.all] waits for nothing.
    The calls are started in the order of the source and the store
    answers in the order it is asked; each dropped call is run in full
    where it is started, which fixes the place of its own [expire] among
    the commands and nothing else. *)
Definition modify (this : t) (changeFn : list Val -> M (list Val))
  : M (list Val * list Val) :=
  let* list := members this in
  let* copyList := mapM json_copy list in
  let originalSet := Set_from [] list in
  let set := Set_from [] copyList in
  let* changed := changeFn set in
  let newSet := Set_from [] changed in
  let itemsToRemove :=
    List.filter (fun x => negb (Set_has newSet x)) originalSet in
  let itemsToAdd :=
    List.filter (fun x => negb (Set_has originalSet x)) newSet in
  let* _ := forEach (fun x => detached (rem this x)) itemsToRemove in
  let* _ := forEach (fun x => detached (add this (One x))) itemsToAdd in
  let* _ := refreshExpiry this in
  ret (originalSet, newSet).

Definition delete (this : t) : M Z := Store.del (id this).

Definition clear (this : t) : M Z := delete this.

Definition contains (this : t) (obj : Val) : M Z :=
  let* m := prepare this obj in
  Store.sismember (id this) m.

Definition has (this : t) (obj : Val) : M Z := contains this obj.

Definition count (this : t) (obj : Val) : M Z := Store.scard (id this).

Definition validateSetId (this : t) (setId : Operand) : Result string :=
  match setId with
  | Key k => Ok k
  | Handle set =>
      if negb (String.eqb (namespace set) (namespace this)) then
        Throw (CrossSlotError "Trying to perform a group operation (union/intersect/diff) on RedisSets from different namespaces; this would throw a CROSSLOT error on prod")
      else if negb (String.eqb (Schema.type (schema set))
                               (Schema.type (schema this))) then
        Throw (CrossSlotError "Trying to perform a group operation (union/intersect/diff) on RedisSets from different schema types; this would throw a CROSSSLOT error on prod")
      else Ok (id set)
  end.

Fixpoint validateSetIds (this : t) (setIds : list Operand)
  : Result (list string) :=
  match setIds with
  | [] => Ok []
  | x :: r =>
      match validateSetId this x with
      | Throw e => Throw e
      | Ok k =>
          match validateSetIds this r with
          | Throw e => Throw e
          | Ok ks => Ok (k :: ks)
          end
      end
  end.

Definition onion (this : t) (setIds : list Operand) : M unit :=
  throw (PlainError "Onion error").

Section Construction.

(** [Schema.String], the schema a collection gets when none is given; its
    source is not among the files. *)
Variable Schema_String : option Z -> Schema.t.

Definition constructor (o : Options) : M t :=
  match opt_tance o with
  | None =>
      throw (DocumentValidationError
               "Can't create document without a database")
  | Some tance =>
      let schema :=
        match opt_schema o with
        | Some s => s
        | None => Schema_String (opt_expirySeconds o)
        end in
      let namespace := JsString.or_else (opt_namespace o) EmptyString in
      let* id :=
        match opt_id o with
        | Some i => if String.eqb i EmptyString
                    then newKey (Some schema) (Some namespace)
                    else ret i
        | None => newKey (Some schema) (Some namespace)
        end in
      ret (mk tance schema namespace id (opt_expirySeconds o))
  end.

(** The handle the [*Store] operations and [copyTo] build. *)
Definition sibling (this : t) (id : option string) : M t :=
  constructor (mkOptions (Some (tance this)) id (Some (schema this))
                         (Some (namespace this)) (expirySeconds this)).

Definition union (this : t) (setIds : list Operand) : M (list Val) :=
  let* keys := lift (validateSetIds this setIds) in
  let* unionResult := Store.sunion (id this :: keys) in
  mapM (fun x => postpare this (Some x)) unionResult.

Definition unionStore (this : t) (setIds : list Operand) : M t :=
  let* newSet := sibling this None in
  let* keys := lift (validateSetIds this setIds) in
  let* _ := Store.sunionstore (id newSet) (id this :: keys) in
  ret newSet.

Definition unionStoreAt (this : t) (id' : option string)
    (setIds : list Operand) : M t :=
  let* newSet := sibling this id' in
  let* keys := lift (validateSetIds this setIds) in
  let* _ := Store.sunionstore (id newSet) (id this :: keys) in
  ret newSet.

Definition intersect (this : t) (setIds : list Operand) : M (list Val) :=
  let* keys := lift (validateSetIds this setIds) in
  let* intersectResult := Store.sinter (id this :: keys) in
  mapM (fun x => postpare this (Some x)) intersectResult.

Definition intersectStore (this : t) (setIds : list Operand) : M t :=
  let* newSet := sibling this None in
  let* keys := lift (validateSetIds this setIds) in
  let* _ := Store.sinterstore (id newSet) (id this :: keys) in
  ret newSet.

Definition intersectStoreAt (this : t) (id' : option string)
    (setIds : list Operand) : M t :=
  let* newSet := sibling this id' in
  let* keys := lift (validateSetIds this setIds) in
  let* _ := Store.sinterstore (id newSet) (id this :: keys) in
  ret newSet.

Definition copyTo (this : t) (id' : option string) : M t :=
  let* newSet := sibling this id' in
  let* _ := Store.sinterstore (id newSet) [id this] in
  ret newSet.

Definition diff (this : t) (setIds : list Operand) : M (list Val) :=
  let* keys := lift (validateSetIds this setIds) in
  let* diffResult := Store.sdiff (id this :: keys) in
  mapM (fun x => postpare this (Some x)) diffResult.

Definition diffStore (this : t) (setIds : list Operand) : M t :=
  let* newSet := sibling this None in
  let* keys := lift (validateSetIds this setIds) in
  let* _ := Store.sdiffstore (id newSet) (id this :: keys) in
  ret newSet.

Definition diffStoreAt (this : t) (id' : option string)
    (setIds : list Operand) : M t :=
  let* newSet := sibling this id' in
  let* keys := lift (validateSetIds this setIds) in
  let* _ := Store.sdiffstore (id newSet) (id this :: keys) in
  ret newSet.

End Construction.

End RedisSet.

(** ** A text encoding for documents

    JSON text for numbers, strings, [null] and objects with such fields,
    on strings that need no escaping: what a schema's [serializationFn]
    and [deserializationFn] are in the examples below. *)

Module Json.

(** The double quote character. *)
Definition dquote : ascii := ascii_of_nat 34.

Definition quote (s : string) : string :=
  String dquote s +:+ String dquote EmptyString.

Definition of_int (n : Z) : string := NilZero.string_of_int (Z.to_int n).

Definition of_field (v : JVal) : string :=
  match v with
  | JNull => "null"
  | JNum n => of_int n
  | JStr s => quote s
  end.

Fixpoint of_fields (o : Obj) : string :=
  match o with
  | [] => EmptyString
  | [(k, v)] => quote k +:+ ":" +:+ of_field v
  | (k, v) :: r => quote k +:+ ":" +:+ of_field v +:+ "," +:+ of_fields r
  end.

Definition stringify (d : Doc) : string :=
  match d with
  | DNull => "null"
  | DNum n => of_int n
  | DStr s => quote s
  | DObj o => "{" +:+ of_fields o +:+ "}"
  end.

(** A literal that is not a string: [null] or an integer. *)
Definition literal (s : string) : option JVal :=
  if String.eqb s "null" then Some JNull
  else JNum <$> (Z.of_int <$> NilZero.int_of_string s).

(** Where the reader of an object stands. *)
Inductive Mode : Type :=
| KeyStart (first : bool)
| InKey (acc : string)
| Colon (k : string)
| ValStart (k : string)
| InStr (k : string) (acc : string)
| InLit (k : string) (acc : string)
| AfterVal
| Closed.

Definition snoc (s : string) (c : ascii) : string :=
  s +:+ String c EmptyString.

Fixpoint read_object (s : string) (m : Mode) (o : Obj) : option Obj :=
  match s with
  | EmptyString => match m with Closed => Some o | _ => None end
  | String c r =>
      match m with
      | KeyStart first =>
          if Ascii.eqb c dquote then read_object r (InKey EmptyString) o
          else if Ascii.eqb c "}" && first then read_object r Closed o
          else None
      | InKey acc =>
          if Ascii.eqb c dquote then read_object r (Colon acc) o
          else read_object r (InKey (snoc acc c)) o
      | Colon k =>
          if Ascii.eqb c ":" then read_object r (ValStart k) o else None
      | ValStart k =>
          if Ascii.eqb c dquote then read_object r (InStr k EmptyString) o
          else read_object r (InLit k (String c EmptyString)) o
      | InStr k acc =>
          if Ascii.eqb c dquote
          then read_object r AfterVal (Object.set k (JStr acc) o)
          else read_object r (InStr k (snoc acc c)) o
      | InLit k acc =>
          if Ascii.eqb c "," then
            match literal acc with
            | Some v => read_object r (KeyStart false) (Object.set k v o)
            | None => None
            end
          else if Ascii.eqb c "}" then
            match literal acc with
            | Some v => read_object r Closed (Object.set k v o)
            | None => None
            end
          else read_object r (InLit k (snoc acc c)) o
      | AfterVal =>
          if Ascii.eqb c "," then read_object r (KeyStart false) o
          else if Ascii.eqb c "}" then read_object r Closed o
          else None
      | Closed => None
      end
  end.

Fixpoint read_string (s : string) (acc : string) : option string :=
  match s with
  | EmptyString => None
  | String c r =>
      if Ascii.eqb c dquote then
        match r with EmptyString => Some acc | _ => None end
      else read_string r (snoc acc c)
  end.

Definition parse (s : string) : option Doc :=
  match s with
  | EmptyString => None
  | String c r =>
      if Ascii.eqb c "{" then DObj <$> read_object r (KeyStart true) []
      else if Ascii.eqb c dquote then DStr <$> read_string r EmptyString
      else match literal s with
           | Some JNull => Some DNull
           | Some (JNum n) => Some (DNum n)
           | _ => None
           end
  end.

End Json.

(** ** The employee schema of the test suite, and collections over it *)

Module Employee.

Definition employeeV1 : Skeema.Definition_ :=
  Skeema.mkDefinition
    [("firstname", Skeema.TString); ("lastname", Skeema.TString)]
    ["firstname"; "lastname"].

Definition employeeV2 : Skeema.Definition_ :=
  Skeema.mkDefinition
    [("firstname", Skeema.TString); ("lastname", Skeema.TString);
     ("salary", Skeema.TInteger)]
    ["firstname"; "lastname"].

Definition employeeV3 : Skeema.Definition_ :=
  Skeema.mkDefinition
    [("firstname", Skeema.TString); ("lastname", Skeema.TString);
     ("salary", Skeema.TInteger); ("fullname", Skeema.TString)]
    ["firstname"; "lastname"; "fullname"].

(** [`${v}`] for a property value. *)
Definition template (v : option JVal) : string :=
  match v with
  | None => "undefined"
  | Some JNull => "null"
  | Some (JNum n) => Json.of_int n
  | Some (JStr s) => s
  end.

Definition toV2 (d : Doc) : Doc :=
  match d with
  | DObj o => DObj (Object.set "salary" (JNum 30000) o)
  | _ => d
  end.

Definition toV3 (d : Doc) : Doc :=
  match d with
  | DObj o =>
      DObj (Object.set "fullname"
              (JStr (template (Object.get "firstname" o) +:+ " "
                     +:+ template (Object.get "lastname" o))) o)
  | _ => d
  end.

Definition empty : Skeema.t :=
  Skeema.mk "Employee" [] Json.stringify Json.parse.

Definition employeeSchema : Skeema.t :=
  Skeema.addVersion employeeV3 toV3
    (Skeema.addVersion employeeV2 toV2
       (Skeema.addVersion employeeV1 (fun x => x) empty)).

(** A chain whose second version wants a salary that its upgrade function
    does not provide. *)
Definition salaried : Skeema.Definition_ :=
  Skeema.mkDefinition
    [("firstname", Skeema.TString); ("lastname", Skeema.TString);
     ("salary", Skeema.TInteger)]
    ["firstname"; "lastname"; "salary"].

Definition brokenSchema : Skeema.t :=
  Skeema.addVersion salaried (fun x => x)
    (Skeema.addVersion employeeV1 (fun x => x) empty).

Definition validEmployee : Obj :=
  [("version", JNum 1); ("firstname", JStr "Charles");
   ("lastname", JStr "Huckbreimer")].

Definition invalidEmployee : Obj :=
  [("version", JNum 1); ("firstname", JStr "Charles")].

(** A schema for plain string members, standing for [Schema.String]. *)
Definition stringSchema (expirySeconds : option Z) : Schema.t :=
  Schema.mk "Schema" "string" 1
    (fun d => match d with DStr _ => true | _ => false end)
    (fun _ => "should be string")
    (fun d => match d with DStr s => s | _ => EmptyString end)
    (fun s => Some (DStr s))
    (fun d => Some d).

Definition client : Tance.Client := Tance.Connection 0.

(** An empty store and heap; the random source numbers its values. *)
Definition world0 : World :=
  mkWorld [] ∅ [] 0 (fun n => "uuid" +:+ Json.of_int (Z.of_nat n))
          (fun s _ => elements s).

(** Collection A of the cross-slot scenario, and collection B in another
    namespace. *)
Definition setA : RedisSet.t :=
  RedisSet.mk client (Skeema.MigratingSchema employeeSchema) "ns1"
              "set-{employee-ns1}-a" None.

Definition setB : RedisSet.t :=
  RedisSet.mk client (Skeema.MigratingSchema employeeSchema) "ns2"
              "set-{employee-ns2}-b" None.

(** A second collection in A's namespace. *)
Definition setA' : RedisSet.t :=
  RedisSet.mk client (Skeema.MigratingSchema employeeSchema) "ns1"
              "set-{employee-ns1}-c" None.

(** A collection of plain strings that expires. *)
Definition names : RedisSet.t :=
  RedisSet.mk client (stringSchema (Some 60)) "ns1" "set-{string-ns1}-n"
              (Some 60).

(** A store in which collection A holds one member, written when the
    chain had a single version. *)
Definition world_v1 : World :=
  mkWorld [] {[ "set-{employee-ns1}-a" := {[ Json.stringify (DObj validEmployee) ]} ]}
          [] 0 (uuids world0) (sample world0).

(** An employee as the current version wants it, not yet stored. *)
Definition currentEmployee : Obj :=
  [("firstname", JStr "Charles"); ("lastname", JStr "Huckbreimer");
   ("fullname", JStr "Charles Huckbreimer")].

(** The same employee as [prepare] stamps it for collection A. *)
Definition storedEmployee : Obj :=
  [("firstname", JStr "Charles"); ("lastname", JStr "Huckbreimer");
   ("fullname", JStr "Charles Huckbreimer");
   ("id", JStr "set-{employee-ns1}-a"); ("type", JStr "Employee");
   ("version", JNum 3)].

(** A world whose heap holds that employee, and the world after it has
    been added to collection A. *)
Definition world1 : World :=
  mkWorld [currentEmployee] ∅ [] 0 (uuids world0) (sample world0).

Definition world2 : World :=
  snd (RedisSet.add setA (RedisSet.One (VObj 0)) world1).

(** A [changeFn] that adds an employee without a last name to the working
    set, and one that returns the working set as it is. *)
Definition hire (set : list Val) : M (list Val) :=
  let* l := Heap.alloc [("firstname", JStr "Ada")] in
  ret (set ++ [VObj l])%list.

Definition keep (set : list Val) : M (list Val) := ret set.

(** A world in which the collection of names holds two names, and a
    [changeFn] that replaces one of them. *)
Definition world_names : World :=
  mkWorld [] {[ "set-{string-ns1}-n" := {[ "ann"; "bob" ]} ]} [] 0
          (uuids world0) (sample world0).

Definition rename (set : list Val) : M (list Val) :=
  ret (List.filter (fun x => negb (bool_decide (x = VStr "ann"))) set
       ++ [VStr "cat"])%list.

End Employee.

(** ** Notions the properties are stated with *)

(** A handle operand that is in another namespace or of another schema
    type than [this]. *)
Definition mismatched (this : RedisSet.t) (op : RedisSet.Operand) : Prop :=
  match op with
  | RedisSet.Key _ => False
  | RedisSet.Handle s =>
      RedisSet.namespace s ≠ RedisSet.namespace this
      ∨ Schema.type (RedisSet.schema s)
        ≠ Schema.type (RedisSet.schema this)
  end.

(** The store key an operand stands for. *)
Definition operand_key (op : RedisSet.Operand) : string :=
  match op with
  | RedisSet.Key k => k
  | RedisSet.Handle s => RedisSet.id s
  end.

(** The nine group operations. *)
Inductive GroupOperation : Type :=
| Union
| UnionStore
| UnionStoreAt (id : option string)
| Intersect
| IntersectStore
| IntersectStoreAt (id : option string)
| Diff
| DiffStore
| DiffStoreAt (id : option string).

Definition perform (dflt : option Z -> Schema.t)
    (g : GroupOperation) (this : RedisSet.t) (setIds : list RedisSet.Operand)
  : M (list Val + RedisSet.t) :=
  match g with
  | Union =>
      let* r := RedisSet.union this setIds in ret (inl r)
  | UnionStore =>
      let* r := RedisSet.unionStore dflt this setIds in ret (inr r)
  | UnionStoreAt i =>
      let* r := RedisSet.unionStoreAt dflt this i setIds in
      ret (inr r)
  | Intersect =>
      let* r := RedisSet.intersect this setIds in ret (inl r)
  | IntersectStore =>
      let* r := RedisSet.intersectStore dflt this setIds in
      ret (inr r)
  | IntersectStoreAt i =>
      let* r := RedisSet.intersectStoreAt dflt this i setIds in
      ret (inr r)
  | Diff =>
      let* r := RedisSet.diff this setIds in ret (inl r)
  | DiffStore =>
      let* r := RedisSet.diffStore dflt this setIds in ret (inr r)
  | DiffStoreAt i =>
      let* r := RedisSet.diffStoreAt dflt this i setIds in
      ret (inr r)
  end.

(** The documents the upgrade functions of the versions [vs] yield in
    turn, the first of them numbered [k], each stamped with its number. *)
Fixpoint apply_upgrades (vs : list Skeema.SchemaVersion) (k : Z) (doc : Doc)
  : Doc :=
  match vs with
  | [] => doc
  | sv :: r =>
      apply_upgrades r (k + 1) (Skeema.stamp k (Skeema.upgradeFn sv doc))
  end.

(** The upgrade functions of a chain are what the data model takes them
    to be: the upgrade function of a version maps a document that is valid
    under the previous version, and tagged with it, to one valid under its
    own once stamped. *)
Definition upgrades_preserve_validity (c : Skeema.t) : Prop :=
  forall (i : nat) (prev sv : Skeema.SchemaVersion) (doc : Doc),
    Skeema.versions c !! i = Some prev ->
    Skeema.versions c !! S i = Some sv ->
    Skeema.version_of doc = Some (Z.of_nat (S i)) ->
    Skeema.validates (Skeema.definition prev) doc = true ->
    Skeema.validates (Skeema.definition sv)
      (Skeema.stamp (Z.of_nat (S (S i))) (Skeema.upgradeFn sv doc)) = true.

(** Every value of [vs] is, in heap [h], a document that carries version
    [n]. *)
Definition at_latest (n : Z) (h : list Obj) (vs : list Val) : Prop :=
  Forall (fun v => exists d,
            Heap.resolve h v = Some d /\ Skeema.version_of d = Some n) vs.

(** The operations that read documents. *)
Inductive ReadOperation : Type :=
| Members
| Randmember (n : option Z)
| UnionOf (setIds : list RedisSet.Operand)
| IntersectOf (setIds : list RedisSet.Operand)
| DiffOf (setIds : list RedisSet.Operand).

Definition read (r : ReadOperation) (this : RedisSet.t) : M (list Val) :=
  match r with
  | Members => RedisSet.members this
  | Randmember n => RedisSet.randmember this n
  | UnionOf setIds => RedisSet.union this setIds
  | IntersectOf setIds => RedisSet.intersect this setIds
  | DiffOf setIds => RedisSet.diff this setIds
  end.

(** The schema is version-aware. *)
Definition migrating (this : RedisSet.t) : bool :=
  String.eqb (Schema.className (RedisSet.schema this)) "MigratingSchema".

(** The contents [prepare] validates and serializes for the value [x] in
    heap [h]: those of [x], stamped when the schema is version-aware.
    [None] when [x] is no document for the collection: a dangling
    reference, or with a version-aware schema anything but an object. *)
Definition prepared (this : RedisSet.t) (h : list Obj) (x : Val)
  : option Doc :=
  if migrating this then
    match x with
    | VObj l => (fun o => DObj (RedisSet.stamped this o)) <$> h !! l
    | _ => None
    end
  else Heap.resolve h x.

Definition valid_in (this : RedisSet.t) (h : list Obj) (x : Val) : bool :=
  match prepared this h x with
  | Some d => Schema.isValid (RedisSet.schema this) d
  | None => false
  end.

(** The member [x] is stored as. *)
Definition serialized (this : RedisSet.t) (h : list Obj) (x : Val) : string :=
  match prepared this h x with
  | Some d => Schema.serializationFn (RedisSet.schema this) d
  | None => EmptyString
  end.

(** The heap once [prepare] has run on [x]. *)
Definition heap_after_prepare (this : RedisSet.t) (h : list Obj) (x : Val)
  : list Obj :=
  if migrating this then
    match x with
    | VObj l => match h !! l with
                | Some o => <[l := RedisSet.stamped this o]> h
                | None => h
                end
    | _ => h
    end
  else h.

Definition with_heap (w : World) (h : list Obj) : World :=
  mkWorld h (store w) (log w) (draws w) (uuids w) (sample w).

(** The documents of an input. *)
Definition elements_of (doc : RedisSet.Input) : list Val :=
  match doc with
  | RedisSet.One d => [d]
  | RedisSet.Many ds => ds
  end.

(** The commands [refreshExpiry] sends. *)
Definition expiry_commands (this : RedisSet.t) : list Tance.Command :=
  match RedisSet.expirySeconds this with
  | Some n => if n =? 0 then [] else [Tance.Expire (RedisSet.id this) n]
  | None => []
  end.

(** The schema a collection ends up with. *)
Definition schema_or_default (dflt : option Z -> Schema.t)
    (sch : option Schema.t) (exp : option Z) : Schema.t :=
  match sch with
  | Some s => s
  | None => dflt exp
  end.

(** The key [newKey] builds for a collection of schema [sch] in namespace
    [ns] from the value [u] of [uuid()]. *)
Definition generated_key (sch : Schema.t) (ns u : string) : string :=
  "set-{" +:+ JsString.slice0 18 (JsString.toLowerCase (Schema.type sch))
  +:+ "-" +:+ ns +:+ "}-" +:+ u.

(** The id the constructor takes as given: an absent and an empty id are
    none. *)
Definition supplied (i : option string) : option string :=
  match i with
  | Some s => if String.eqb s EmptyString then None else Some s
  | None => None
  end.

(** The key a store variant writes to, in a world [w]: a generated key, or
    for the [*StoreAt] variants the id that was supplied. *)
Definition destination (g : GroupOperation) (this : RedisSet.t) (w : World)
  : option string :=
  let generated :=
    generated_key (RedisSet.schema this) (RedisSet.namespace this)
                  (uuids w (draws w)) in
  match g with
  | UnionStore | IntersectStore | DiffStore => Some generated
  | UnionStoreAt i | IntersectStoreAt i | DiffStoreAt i =>
      Some (default generated (supplied i))
  | Union | Intersect | Diff => None
  end.

(** The command a store variant sends. *)
Definition store_command (g : GroupOperation) (dest : string)
    (keys : list string) : list Tance.Command :=
  match g with
  | UnionStore | UnionStoreAt _ => [Tance.Sunionstore dest keys]
  | IntersectStore | IntersectStoreAt _ => [Tance.Sinterstore dest keys]
  | DiffStore | DiffStoreAt _ => [Tance.Sdiffstore dest keys]
  | Union | Intersect | Diff => []
  end.

(** The set a group operation computes from the sets at [keys]. *)
Definition combined (g : GroupOperation) (s : gmap string (gset string))
    (keys : list string) : gset string :=
  match g with
  | Union | UnionStore | UnionStoreAt _ => Store.union_of s keys
  | Intersect | IntersectStore | IntersectStoreAt _ => Store.inter_of s keys
  | Diff | DiffStore | DiffStoreAt _ => Store.diff_of s keys
  end.

(** The command a read sends, once its operands have passed validation. *)
Definition read_command (r : ReadOperation) (this : RedisSet.t)
  : list Tance.Command :=
  let group (setIds : list RedisSet.Operand)
            (c : list string -> Tance.Command) :=
    match RedisSet.validateSetIds this setIds with
    | Ok keys => [c (RedisSet.id this :: keys)]
    | Throw _ => []
    end in
  match r with
  | Members => [Tance.Smembers (RedisSet.id this)]
  | Randmember n => [Tance.Srandmember (RedisSet.id this) n]
  | UnionOf setIds => group setIds Tance.Sunion
  | IntersectOf setIds => group setIds Tance.Sinter
  | DiffOf setIds => group setIds Tance.Sdiff
  end.

(** The string holds ASCII characters only.  On such strings a character
    is one code unit, and lower-casing changes the letters A to Z and
    nothing else. *)
Fixpoint ascii_only (s : string) : bool :=
  match s with
  | EmptyString => true
  | String c r => Nat.ltb (nat_of_ascii c) 128 && ascii_only r
  end.

(** The document a stored member stands for: decoded, then upgraded.
    [None] when either step throws. *)
Definition decoded (this : RedisSet.t) (x : string) : option Doc :=
  match Schema.deserializationFn (RedisSet.schema this) x with
  | Some d => Schema.upgrade (RedisSet.schema this) d
  | None => None
  end.

(** The contents the values [vs] stand for in heap [h]. *)
Definition contents (h : list Obj) (vs : list Val) : list (option Doc) :=
  map (Heap.resolve h) vs.

(** * Properties *)

(** ** Running computations *)

Lemma bind_ok {A B} (m : M A) (f : A -> M B) w a w' :
  m w = (Ok a, w') -> bind m f w = f a w'.
Proof. intros H. unfold bind. now rewrite H. Qed.

Lemma or_else_empty (s : string) :
  JsString.or_else (Some s) EmptyString = s.
Proof.
  unfold JsString.or_else. destruct (String.eqb_spec s EmptyString); congruence.
Qed.

(** ** Key construction (C1) *)

(** A collection built without an id gets the key
    [set-{<type>-<namespace>}-<uuid>]: the type segment is the schema's
    type name in lower case, cut to 18 characters, and the namespace
    segment is the namespace the caller gave. *)
Lemma constructor_generated_key dflt c sch ns exp w :
  fst (RedisSet.constructor dflt
         (RedisSet.mkOptions (Some c) None sch (Some ns) exp) w)
  = Ok (RedisSet.mk c (schema_or_default dflt sch exp) ns
          ("set-{"
           +:+ JsString.slice0 18
                 (JsString.toLowerCase
                    (Schema.type (schema_or_default dflt sch exp)))
           +:+ "-" +:+ ns +:+ "}-" +:+ uuids w (draws w)) exp).
Proof.
  unfold RedisSet.constructor; cbn [RedisSet.opt_tance RedisSet.opt_schema
    RedisSet.opt_namespace RedisSet.opt_id RedisSet.opt_expirySeconds].
  rewrite or_else_empty. reflexivity.
Qed.

(** C1.  A collection built with neither an id nor a namespace gets the
    key [set-{<type>-}-<uuid>], [<type>] being the schema's type name in
    lower case cut to 18 characters: the namespace segment is empty, it is
    not [default].  The constructor has replaced the absent namespace by
    the empty string before [newKey] runs, so the [default] that [newKey]
    holds for an absent namespace is never used; handed no namespace,
    [newKey] does build the key with [default]. *)
Theorem constructor_key_without_namespace
    (dflt : option Z -> Schema.t) (c : Tance.Client) (sch : option Schema.t)
    (exp : option Z) (w : World) :
  fst (RedisSet.constructor dflt
         (RedisSet.mkOptions (Some c) None sch None exp) w)
  = Ok (RedisSet.mk c (schema_or_default dflt sch exp) EmptyString
          ("set-{"
           +:+ JsString.slice0 18
                 (JsString.toLowerCase
                    (Schema.type (schema_or_default dflt sch exp)))
           +:+ "-}-" +:+ uuids w (draws w)) exp)
  /\ fst (RedisSet.newKey (Some (schema_or_default dflt sch exp)) None w)
     = Ok ("set-{"
           +:+ JsString.slice0 18
                 (JsString.toLowerCase
                    (Schema.type (schema_or_default dflt sch exp)))
           +:+ "-default}-" +:+ uuids w (draws w)).
Proof. split; reflexivity. Qed.

(** The employee collection built without a namespace. *)
Example employee_key_without_namespace :
  RedisSet.id <$>
    (match fst (RedisSet.constructor Employee.stringSchema
                  (RedisSet.mkOptions (Some Employee.client) None
                     (Some (Skeema.MigratingSchema Employee.employeeSchema))
                     None None) Employee.world0) with
     | Ok h => Some h
     | Throw _ => None
     end)
  = Some "set-{employee-}-uuid0".
Proof. vm_compute. reflexivity. Qed.

(** ** The unsupported operation and the aliases (C8, C10) *)

(** C8.  [onion] throws whatever it is given; the world it leaves is the
    world it found: no command is sent and nothing changes. *)
Theorem onion_always_fails (this : RedisSet.t)
    (setIds : list RedisSet.Operand) (w : World) :
  RedisSet.onion this setIds w = (Throw (PlainError "Onion error"), w).
Proof. reflexivity. Qed.

(** C10.  Each alias is its primary operation: [get] is [members], [set]
    is [add], [has] is [contains] and [clear] is [delete], with the same
    result and the same effects in every world. *)
Theorem aliases_equal_primaries (this : RedisSet.t) (doc : RedisSet.Input)
    (obj : Val) (w : World) :
  RedisSet.get this w = RedisSet.members this w
  /\ RedisSet.set this doc w = RedisSet.add this doc w
  /\ RedisSet.has this obj w = RedisSet.contains this obj w
  /\ RedisSet.clear this w = RedisSet.delete this w.
Proof. repeat split. Qed.

(** ** Handles built by an operation *)

(** Building the handle of a result never fails and leaves the store, the
    commands sent and the heap as they are. *)
Lemma sibling_run dflt this i w :
  exists k w',
    RedisSet.sibling dflt this i w
    = (Ok (RedisSet.mk (RedisSet.tance this) (RedisSet.schema this)
             (RedisSet.namespace this) k (RedisSet.expirySeconds this)), w')
    /\ log w' = log w /\ store w' = store w /\ heap w' = heap w
    /\ (forall s, i = Some s -> s <> EmptyString -> k = s /\ w' = w).
Proof.
  unfold RedisSet.sibling, RedisSet.constructor;
    cbn [RedisSet.opt_tance RedisSet.opt_schema RedisSet.opt_namespace
         RedisSet.opt_id RedisSet.opt_expirySeconds].
  rewrite or_else_empty.
  destruct i as [s|].
  - destruct (String.eqb_spec s EmptyString) as [->|Hne].
    + eexists _, _. split; [reflexivity|].
      cbn. repeat split; congruence.
    + eexists _, _. split; [reflexivity|]. repeat split; congruence.
  - eexists _, _. split; [reflexivity|]. cbn. repeat split; congruence.
Qed.

(** ** copyTo (C9) *)

(** C9.  [copyTo(id)] with a key [id] supplied (a string that is not
    empty: the constructor takes an empty id as none) sends one
    [sinterstore id <this.id>], after which the set stored at [id] is the
    set stored at this collection's key and every other key is as before;
    it returns a handle on [id] with this collection's client, schema,
    namespace and expirySeconds.  The id is not validated against the
    namespace or type: no CrossSlotError is raised, whatever [id] is. *)
Theorem copyTo_stores_copy (dflt : option Z -> Schema.t)
    (this : RedisSet.t) (i : string) (w : World) :
  i <> EmptyString ->
  fst (RedisSet.copyTo dflt this (Some i) w)
  = Ok (RedisSet.mk (RedisSet.tance this) (RedisSet.schema this)
          (RedisSet.namespace this) i (RedisSet.expirySeconds this))
  /\ log (snd (RedisSet.copyTo dflt this (Some i) w))
     = (log w ++ [Tance.Sinterstore i [RedisSet.id this]])%list
  /\ Store.at_key (store (snd (RedisSet.copyTo dflt this (Some i) w))) i
     = Store.at_key (store w) (RedisSet.id this)
  /\ (forall k, k <> i ->
        store (snd (RedisSet.copyTo dflt this (Some i) w)) !! k
        = store w !! k)
  /\ heap (snd (RedisSet.copyTo dflt this (Some i) w)) = heap w
  /\ is_CrossSlotError (fst (RedisSet.copyTo dflt this (Some i) w)) = false.
Proof.
  intros Hne.
  destruct (sibling_run dflt this (Some i) w) as (k & w' & Hs & _ & _ & _ & Hk).
  destruct (Hk i eq_refl Hne) as [-> ->].
  unfold RedisSet.copyTo. rewrite (bind_ok _ _ _ _ _ Hs).
  cbn. repeat split.
  - unfold Store.at_key at 1. now rewrite lookup_insert_eq.
  - intros k Hki. now rewrite lookup_insert_ne.
Qed.

(** The employee collection A copied to a key. *)
Lemma copyTo_stores_copy_witness :
  fst (RedisSet.copyTo Employee.stringSchema Employee.setA
         (Some "backup") Employee.world0)
  = Ok (RedisSet.mk Employee.client
          (Skeema.MigratingSchema Employee.employeeSchema) "ns1" "backup"
          None).
Proof.
  apply (copyTo_stores_copy Employee.stringSchema Employee.setA "backup"
           Employee.world0).
  discriminate.
Defined.

(** With an empty id the constructor generates a key, and the copy goes
    there. *)
Example copyTo_empty_id :
  RedisSet.id <$>
    (match fst (RedisSet.copyTo Employee.stringSchema Employee.setA
                  (Some EmptyString) Employee.world0) with
     | Ok h => Some h
     | Throw _ => None
     end)
  = Some "set-{employee-ns1}-uuid0"
  /\ log (snd (RedisSet.copyTo Employee.stringSchema Employee.setA
                 (Some EmptyString) Employee.world0))
     = [Tance.Sinterstore "set-{employee-ns1}-uuid0"
          ["set-{employee-ns1}-a"]].
Proof. vm_compute. split; reflexivity. Qed.

(** ** Cross-slot validation (C2) *)

Lemma validateSetId_cases this op :
  (~ mismatched this op
   /\ RedisSet.validateSetId this op = Ok (operand_key op))
  \/ (mismatched this op
      /\ exists msg,
           RedisSet.validateSetId this op = Throw (CrossSlotError msg)).
Proof.
  destruct op as [k|s]; cbn.
  - left. split; [tauto | reflexivity].
  - destruct (String.eqb_spec (RedisSet.namespace s) (RedisSet.namespace this))
      as [Hn|Hn]; cbn.
    + destruct (String.eqb_spec (Schema.type (RedisSet.schema s))
                  (Schema.type (RedisSet.schema this))) as [Ht|Ht]; cbn.
      * left. split; [tauto | reflexivity].
      * right. split; [tauto | eauto].
    + right. split; [tauto | eauto].
Qed.

Lemma validateSetIds_mismatch this ops :
  Exists (mismatched this) ops ->
  exists msg, RedisSet.validateSetIds this ops = Throw (CrossSlotError msg).
Proof.
  induction ops as [|op r IH]; intros H.
  - inversion H.
  - cbn. destruct (validateSetId_cases this op) as [[Hok ->]|[_ [msg ->]]].
    + inversion H as [? ? Hhd|? ? Htl]; subst; [contradiction|].
      destruct (IH Htl) as [msg ->]. eauto.
    + eauto.
Qed.

Lemma validateSetIds_match this ops :
  Forall (fun op => ~ mismatched this op) ops ->
  RedisSet.validateSetIds this ops = Ok (map operand_key ops).
Proof.
  induction 1 as [|op r Hop _ IH]; [reflexivity|].
  cbn. destruct (validateSetId_cases this op) as [[_ ->]|[Hbad _]].
  - now rewrite IH.
  - contradiction.
Qed.

Lemma postpare_not_CrossSlot this s w :
  is_CrossSlotError (fst (RedisSet.postpare this s w)) = false.
Proof.
  destruct s as [s|]; [|reflexivity]. unfold RedisSet.postpare, bind.
  destruct (Schema.deserializationFn (RedisSet.schema this) s) as [d|];
    [|reflexivity]. cbn.
  destruct (Schema.upgrade (RedisSet.schema this) d) as [d'|];
    [|reflexivity]. cbn.
  destruct d'; reflexivity.
Qed.

Lemma mapM_not_CrossSlot {A B} (f : A -> M B) xs :
  (forall x w, is_CrossSlotError (fst (f x w)) = false) ->
  forall w, is_CrossSlotError (fst (mapM f xs w)) = false.
Proof.
  intros Hf. induction xs as [|x r IH]; intros w; [reflexivity|].
  cbn. unfold bind. specialize (Hf x w).
  destruct (f x w) as [[y|e] w1]; [|exact Hf].
  specialize (IH w1). destruct (mapM f r w1) as [[ys|e] w2]; [reflexivity|].
  exact IH.
Qed.

(** What a group operation does once its operands are known to clash, or
    known not to. *)
Ltac group_case dflt this i w Hv :=
  cbn [perform]; unfold RedisSet.union, RedisSet.unionStore,
    RedisSet.unionStoreAt, RedisSet.intersect, RedisSet.intersectStore,
    RedisSet.intersectStoreAt, RedisSet.diff, RedisSet.diffStore,
    RedisSet.diffStoreAt;
  unfold bind, RedisSet.lift; rewrite Hv;
  try (destruct (sibling_run dflt this i w)
         as (?k & ?w' & ?Hs & ?Hlog & ?Hstore & _);
       rewrite Hs).

(** C2.  For each of the nine group operations: if some operand is a
    handle whose namespace or schema type differs from this collection's,
    the operation fails with CrossSlotError and the store and the commands
    sent are what they were, so no command has been sent; if no handle
    operand differs, validation yields the operands' keys in order, a raw
    key standing for itself unchecked, and the operation raises no
    CrossSlotError. *)
Theorem group_operations_cross_slot (dflt : option Z -> Schema.t)
    (g : GroupOperation) (this : RedisSet.t)
    (setIds : list RedisSet.Operand) (w : World) :
  (Exists (mismatched this) setIds ->
     is_CrossSlotError (fst (perform dflt g this setIds w)) = true
     /\ log (snd (perform dflt g this setIds w)) = log w
     /\ store (snd (perform dflt g this setIds w)) = store w)
  /\ (Forall (fun op => ~ mismatched this op) setIds ->
        RedisSet.validateSetIds this setIds = Ok (map operand_key setIds)
        /\ is_CrossSlotError (fst (perform dflt g this setIds w)) = false).
Proof.
  split.
  - intros H. destruct (validateSetIds_mismatch this setIds H) as [msg Hv].
    destruct g as [| |i| | |i| | |i];
      first [ group_case dflt this i w Hv
            | group_case dflt this (@None string) w Hv ];
      cbn; auto.
  - intros H. pose proof (validateSetIds_match this setIds H) as Hv.
    split; [exact Hv|].
    pose proof (fun xs w =>
      mapM_not_CrossSlot (fun x => RedisSet.postpare this (Some x)) xs
        (fun x w => postpare_not_CrossSlot this (Some x) w) w) as Hm.
    destruct g as [| |i| | |i| | |i];
      first [ group_case dflt this i w Hv
            | group_case dflt this (@None string) w Hv ];
      cbn -[mapM RedisSet.postpare]; try reflexivity;
      match goal with
      | |- context [mapM ?f ?xs ?w] =>
          generalize (Hm xs w); destruct (mapM f xs w) as [[?|?] ?];
          cbn; intros Hx; [reflexivity | exact Hx]
      end.
Qed.

(** The scenario of the specification: A unioned with B fails before any
    command; A with a collection of its namespace and a raw key does not. *)
Lemma group_operations_cross_slot_witness :
  (is_CrossSlotError
     (fst (perform Employee.stringSchema Union Employee.setA
             [RedisSet.Handle Employee.setB] Employee.world0)) = true
   /\ log (snd (perform Employee.stringSchema Union Employee.setA
                  [RedisSet.Handle Employee.setB] Employee.world0))
      = log Employee.world0
   /\ store (snd (perform Employee.stringSchema Union Employee.setA
                    [RedisSet.Handle Employee.setB] Employee.world0))
      = store Employee.world0)
  /\ (RedisSet.validateSetIds Employee.setA
        [RedisSet.Handle Employee.setA'; RedisSet.Key "raw"]
      = Ok ["set-{employee-ns1}-c"; "raw"]
      /\ is_CrossSlotError
           (fst (perform Employee.stringSchema UnionStore Employee.setA
                   [RedisSet.Handle Employee.setA'; RedisSet.Key "raw"]
                   Employee.world0)) = false).
Proof.
  split.
  - apply (proj1 (group_operations_cross_slot Employee.stringSchema Union
                    Employee.setA [RedisSet.Handle Employee.setB]
                    Employee.world0)).
    constructor. cbn. left. discriminate.
  - apply (proj2 (group_operations_cross_slot Employee.stringSchema UnionStore
                    Employee.setA
                    [RedisSet.Handle Employee.setA'; RedisSet.Key "raw"]
                    Employee.world0)).
    repeat constructor; cbn; intuition congruence.
Defined.

(** ** Objects *)

Lemma get_set k k' v o :
  Object.get k (Object.set k' v o)
  = if String.eqb k k' then Some v else Object.get k o.
Proof.
  induction o as [|[k0 v0] r IH]; cbn.
  - destruct (String.eqb k k'); reflexivity.
  - destruct (String.eqb_spec k' k0) as [->|Hne]; cbn.
    + destruct (String.eqb k k0); reflexivity.
    + destruct (String.eqb_spec k k0) as [->|Hne'].
      * destruct (String.eqb_spec k0 k'); [congruence | reflexivity].
      * exact IH.
Qed.

Lemma get_set_eq k v o : Object.get k (Object.set k v o) = Some v.
Proof. rewrite get_set. now rewrite String.eqb_refl. Qed.

(** Writing a property its own value changes nothing. *)
Lemma set_same k v o : Object.get k o = Some v -> Object.set k v o = o.
Proof.
  induction o as [|[k0 v0] r IH]; cbn; [discriminate|].
  destruct (String.eqb_spec k k0) as [->|Hne].
  - now intros [= ->].
  - intros H. now rewrite IH.
Qed.

(** ** The schema chain (C3) *)

Lemma validates_object d doc :
  Skeema.validates d doc = true -> exists o, doc = DObj o.
Proof. destruct doc; cbn; try discriminate. eauto. Qed.

Lemma version_of_stamp k o :
  Skeema.version_of (Skeema.stamp k (DObj o)) = Some k.
Proof. cbn. now rewrite get_set_eq. Qed.

Lemma selected_versioned c doc v :
  Skeema.version_of doc = Some v ->
  Skeema.selected c doc = Skeema.version_at c v.
Proof.
  destruct doc as [| | |o]; cbn; try discriminate.
  destruct (Object.get "version" o) as [[|n|s]|]; try discriminate.
  now intros [= ->].
Qed.

(** Along a chain whose upgrade functions keep validity, no step fails. *)
Lemma migrate_total c :
  upgrades_preserve_validity c ->
  forall vs pre prev doc,
    Skeema.versions c = (pre ++ prev :: vs)%list ->
    Skeema.version_of doc = Some (Z.of_nat (S (length pre))) ->
    Skeema.validates (Skeema.definition prev) doc = true ->
    Skeema.migrate vs (Z.of_nat (S (S (length pre)))) doc
    = Some (apply_upgrades vs (Z.of_nat (S (S (length pre)))) doc)
    /\ Skeema.version_of
         (apply_upgrades vs (Z.of_nat (S (S (length pre)))) doc)
       = Some (Z.of_nat (S (length pre) + length vs)).
Proof.
  intros Hc. induction vs as [|sv r IH]; intros pre prev doc Hv Hver Hval.
  - cbn. split; [reflexivity|]. rewrite Hver. f_equal. lia.
  - assert (Hprev : Skeema.versions c !! length pre = Some prev).
    { rewrite Hv. now rewrite list_lookup_middle. }
    assert (Hsv : Skeema.versions c !! S (length pre) = Some sv).
    { rewrite Hv. rewrite (lookup_app_r pre) by lia.
      replace (S (length pre) - length pre)%nat with 1%nat by lia.
      reflexivity. }
    pose proof (Hc _ _ _ _ Hprev Hsv Hver Hval) as Hnext.
    destruct (validates_object _ _ Hnext) as [o Ho].
    cbn [Skeema.migrate apply_upgrades]. rewrite Hnext.
    specialize (IH (pre ++ [prev])%list sv
                  (Skeema.stamp (Z.of_nat (S (S (length pre))))
                     (Skeema.upgradeFn sv doc))).
    rewrite length_app in IH. cbn [length] in IH.
    replace (length pre + 1)%nat with (S (length pre)) in IH by lia.
    replace (Z.of_nat (S (S (length pre))) + 1)
      with (Z.of_nat (S (S (S (length pre))))) by lia.
    destruct IH as [IH1 IH2].
    + rewrite Hv. now rewrite <- app_assoc.
    + destruct (Skeema.upgradeFn sv doc) as [| | |o'];
        try (cbn in Ho; discriminate).
      apply version_of_stamp.
    + exact Hnext.
    + split; [exact IH1|]. rewrite IH2. f_equal. cbn [length]. lia.
Qed.

(** An upgrade that succeeds ends at the current version. *)
Lemma migrate_version vs :
  forall k doc doc',
    Skeema.version_of doc = Some (k - 1) ->
    Skeema.migrate vs k doc = Some doc' ->
    Skeema.version_of doc' = Some (k - 1 + Z.of_nat (length vs)).
Proof.
  induction vs as [|sv r IH]; intros k doc doc' Hver Hm; cbn in Hm.
  - injection Hm as <-. rewrite Hver. f_equal. cbn. lia.
  - destruct (Skeema.validates (Skeema.definition sv)
                (Skeema.stamp k (Skeema.upgradeFn sv doc))) eqn:Hval;
      [|discriminate].
    destruct (validates_object _ _ Hval) as [o Ho].
    apply IH in Hm.
    + rewrite Hm. f_equal. cbn [length]. lia.
    + replace (k + 1 - 1) with k by lia.
      destruct (Skeema.upgradeFn sv doc) as [| | |o'];
        try (cbn in Ho; discriminate).
      apply version_of_stamp.
Qed.

Lemma upgrade_version c doc doc' :
  Skeema.upgrade c doc = Some doc' ->
  Skeema.version_of doc' = Some (Skeema.currentVersion c).
Proof.
  unfold Skeema.upgrade.
  destruct (Skeema.version_of doc) as [v|] eqn:Hver; [|discriminate].
  destruct ((1 <=? v) && (v <=? Skeema.currentVersion c)) eqn:Hr;
    [|discriminate].
  apply andb_true_iff in Hr as [H1 H2].
  apply Z.leb_le in H1, H2. unfold Skeema.currentVersion in *.
  intros Hm. apply (migrate_version _ (v + 1) doc) in Hm.
  - rewrite Hm. f_equal. rewrite length_drop. lia.
  - rewrite Hver. f_equal. lia.
Qed.

(** A document at the current version is left as it is. *)
Lemma upgrade_current c doc :
  Skeema.version_of doc = Some (Skeema.currentVersion c) ->
  1 <= Skeema.currentVersion c ->
  Skeema.upgrade c doc = Some doc.
Proof.
  intros Hver Hn. unfold Skeema.upgrade. rewrite Hver.
  replace ((1 <=? Skeema.currentVersion c)
           && (Skeema.currentVersion c <=? Skeema.currentVersion c))
    with true by (symmetry; apply andb_true_iff; split; apply Z.leb_le; lia).
  unfold Skeema.currentVersion. rewrite Nat2Z.id.
  now rewrite drop_all.
Qed.

(** An upgrade that succeeds yields what the upgrade functions yield in
    turn. *)
Lemma migrate_apply vs :
  forall k doc doc',
    Skeema.migrate vs k doc = Some doc' -> doc' = apply_upgrades vs k doc.
Proof.
  induction vs as [|sv r IH]; intros k doc doc'; cbn.
  - now intros [= <-].
  - destruct (Skeema.validates (Skeema.definition sv)
                (Skeema.stamp k (Skeema.upgradeFn sv doc))); [|discriminate].
    apply IH.
Qed.

(** Whatever [upgrade] returns for a document that carries a version in
    range is the document the upgrade functions of the later versions
    yield in turn; it carries the current version and is returned
    unchanged when upgraded again. *)
Lemma upgrade_result_is_current (c : Skeema.t) (d d' : Doc) (v : Z) :
  Skeema.version_of d = Some v ->
  1 <= v <= Skeema.currentVersion c ->
  Skeema.upgrade c d = Some d' ->
  d' = apply_upgrades (drop (Z.to_nat v) (Skeema.versions c)) (v + 1) d
  /\ Skeema.version_of d' = Some (Skeema.currentVersion c)
  /\ Skeema.upgrade c d' = Some d'.
Proof.
  intros Hver Hr Hd'.
  assert (Hup : Skeema.upgrade c d
                = Skeema.migrate (drop (Z.to_nat v) (Skeema.versions c))
                    (v + 1) d).
  { unfold Skeema.upgrade. rewrite Hver.
    now replace ((1 <=? v) && (v <=? Skeema.currentVersion c)) with true
      by (symmetry; apply andb_true_iff; split; apply Z.leb_le; lia). }
  split; [|split].
  - apply migrate_apply. now rewrite <- Hup.
  - now apply upgrade_version with d.
  - apply upgrade_current; [now apply upgrade_version with d | lia].
Qed.

(** C3, as the modelled [upgrade] has it.  In a chain of [n] versions
    whose upgrade functions keep validity, a document that carries a
    version [v] with [1 <= v <= n] and is valid at it is upgraded to the
    document the upgrade functions of the versions [v+1] to [n] yield in
    turn; that document carries version [n], and upgrading it again
    returns it unchanged. *)
Theorem upgrade_reaches_current_version (c : Skeema.t) (d : Doc) (v : Z) :
  upgrades_preserve_validity c ->
  Skeema.version_of d = Some v ->
  1 <= v <= Skeema.currentVersion c ->
  Skeema.isValid c d = true ->
  Skeema.upgrade c d
  = Some (apply_upgrades (drop (Z.to_nat v) (Skeema.versions c)) (v + 1) d)
  /\ Skeema.version_of
       (apply_upgrades (drop (Z.to_nat v) (Skeema.versions c)) (v + 1) d)
     = Some (Skeema.currentVersion c)
  /\ Skeema.upgrade c
       (apply_upgrades (drop (Z.to_nat v) (Skeema.versions c)) (v + 1) d)
     = Some (apply_upgrades (drop (Z.to_nat v) (Skeema.versions c)) (v + 1) d).
Proof.
  intros Hc Hver Hr Hval.
  assert (Hup : Skeema.upgrade c d
                = Skeema.migrate (drop (Z.to_nat v) (Skeema.versions c))
                    (v + 1) d).
  { unfold Skeema.upgrade. rewrite Hver.
    now replace ((1 <=? v) && (v <=? Skeema.currentVersion c)) with true
      by (symmetry; apply andb_true_iff; split; apply Z.leb_le; lia). }
  assert (Hret : Skeema.upgrade c d
                 = Some (apply_upgrades
                           (drop (Z.to_nat v) (Skeema.versions c)) (v + 1) d)).
  { unfold Skeema.isValid in Hval.
    rewrite (selected_versioned c d v Hver) in Hval.
    unfold Skeema.version_at in Hval.
    replace (1 <=? v) with true in Hval by (symmetry; apply Z.leb_le; lia).
    destruct (Skeema.versions c !! Z.to_nat (v - 1)) as [prev|] eqn:Hprev;
      [|discriminate].
    pose proof (take_drop_middle _ _ _ Hprev) as Hsplit.
    assert (Hlen : length (take (Z.to_nat (v - 1)) (Skeema.versions c))
                   = Z.to_nat (v - 1)).
    { rewrite length_take. apply lookup_lt_Some in Hprev. lia. }
    destruct (migrate_total c Hc
                (drop (S (Z.to_nat (v - 1))) (Skeema.versions c))
                (take (Z.to_nat (v - 1)) (Skeema.versions c)) prev d)
      as [Hm _].
    - now rewrite Hsplit.
    - rewrite Hlen, Hver. f_equal. lia.
    - exact Hval.
    - rewrite Hlen in Hm.
      replace (S (Z.to_nat (v - 1))) with (Z.to_nat v) in Hm by lia.
      replace (Z.of_nat (S (Z.to_nat v))) with (v + 1) in Hm by lia.
      now rewrite Hup. }
  split; [exact Hret|].
  split.
  - now apply upgrade_version with d.
  - apply upgrade_current; [now apply upgrade_version with d | lia].
Qed.

(** A chain of two versions whose second upgrade function does not keep
    validity: the employee carries version 1 and is valid at it, and
    [upgrade] returns no document. *)
Lemma upgrade_reaches_current_version_counterexample :
  Skeema.currentVersion Employee.brokenSchema = 2
  /\ Skeema.version_of (DObj Employee.validEmployee) = Some 1
  /\ Skeema.isValid Employee.brokenSchema (DObj Employee.validEmployee) = true
  /\ Skeema.upgrade Employee.brokenSchema (DObj Employee.validEmployee)
     = None
  /\ ~ (exists d',
          Skeema.upgrade Employee.brokenSchema (DObj Employee.validEmployee)
          = Some d'
          /\ Skeema.version_of d' = Some 2).
Proof.
  repeat split; try (vm_compute; reflexivity).
  intros (d' & H & _). vm_compute in H. discriminate.
Qed.

(** The upgrade functions of the employee chain keep validity. *)
Lemma employee_upgrades_valid :
  upgrades_preserve_validity Employee.employeeSchema.
Proof.
  intros i prev sv doc Hp Hs Hver Hval.
  destruct (validates_object _ _ Hval) as [o ->].
  destruct i as [|[|i]]; cbn in Hp, Hs; try discriminate;
    injection Hp as <-; injection Hs as <-;
    unfold Skeema.validates in *; cbn in Hval |- *;
    rewrite ?get_set; cbn;
    destruct (Object.get "firstname" o) as [[| |]|];
    destruct (Object.get "lastname" o) as [[| |]|];
    destruct (Object.get "salary" o) as [[| |]|];
    cbn in *; try discriminate; reflexivity.
Qed.

(** The scenario of the specification: the version 1 employee upgraded
    through the chain. *)
Lemma upgrade_reaches_current_version_witness :
  Skeema.upgrade Employee.employeeSchema (DObj Employee.validEmployee)
  = Some (DObj [("version", JNum 3); ("firstname", JStr "Charles");
                ("lastname", JStr "Huckbreimer"); ("salary", JNum 30000);
                ("fullname", JStr "Charles Huckbreimer")])
  /\ Skeema.upgrade Employee.employeeSchema
       (DObj [("version", JNum 3); ("firstname", JStr "Charles");
              ("lastname", JStr "Huckbreimer"); ("salary", JNum 30000);
              ("fullname", JStr "Charles Huckbreimer")])
     = Some (DObj [("version", JNum 3); ("firstname", JStr "Charles");
                   ("lastname", JStr "Huckbreimer"); ("salary", JNum 30000);
                   ("fullname", JStr "Charles Huckbreimer")]).
Proof.
  assert (H : 1 <= 1 <= Skeema.currentVersion Employee.employeeSchema)
    by (vm_compute; split; discriminate).
  destruct (upgrade_reaches_current_version Employee.employeeSchema
              (DObj Employee.validEmployee) 1 employee_upgrades_valid
              eq_refl H eq_refl) as (H1 & _ & H3).
  split; [exact H1 | exact H3].
Defined.

(** Where an upgrade function does not keep validity the upgrade fails:
    the second version of this chain wants a salary that its upgrade
    function does not provide. *)
Example upgrade_fails_on_invalid_step :
  Skeema.isValid Employee.brokenSchema (DObj Employee.validEmployee) = true
  /\ Skeema.upgrade Employee.brokenSchema (DObj Employee.validEmployee)
     = None.
Proof. vm_compute. split; reflexivity. Qed.

(** ** Reading documents (C6) *)

Lemma resolve_app h ext v d :
  Heap.resolve h v = Some d -> Heap.resolve (h ++ ext) v = Some d.
Proof.
  destruct v as [| | |l]; cbn; try tauto.
  destruct (h !! l) as [o|] eqn:Hl; [|discriminate].
  intros H. now rewrite (lookup_app_l_Some _ _ _ _ Hl).
Qed.

Lemma postpare_unfold this s w :
  RedisSet.postpare this (Some s) w
  = match Schema.deserializationFn (RedisSet.schema this) s with
    | None => (Throw SyntaxError, w)
    | Some doc =>
        match Schema.upgrade (RedisSet.schema this) doc with
        | None => (Throw MigrationError, w)
        | Some doc' => Heap.fresh doc' w
        end
    end.
Proof.
  unfold RedisSet.postpare, bind.
  destruct (Schema.deserializationFn (RedisSet.schema this) s) as [d|];
    [|reflexivity]. cbn.
  destruct (Schema.upgrade (RedisSet.schema this) d) as [d'|]; reflexivity.
Qed.

(** A fresh value stands for the contents it was built from; the heap only
    grows. *)
Lemma fresh_run d w v w' :
  Heap.fresh d w = (Ok v, w') ->
  Heap.resolve (heap w') v = Some d
  /\ (exists ext, heap w' = (heap w ++ ext)%list)
  /\ store w' = store w /\ log w' = log w.
Proof.
  destruct d as [|n|s|o]; cbn; intros [= <- <-]; cbn.
  1-3: repeat split; try reflexivity; exists []; now rewrite app_nil_r.
  repeat split; try reflexivity.
  - rewrite lookup_app_r by lia. now rewrite Nat.sub_diag.
  - eauto.
Qed.

Lemma postpare_latest c this s w v w' :
  RedisSet.schema this = Skeema.MigratingSchema c ->
  RedisSet.postpare this (Some s) w = (Ok v, w') ->
  (exists d, Heap.resolve (heap w') v = Some d
             /\ Skeema.version_of d = Some (Skeema.currentVersion c))
  /\ exists ext, heap w' = (heap w ++ ext)%list.
Proof.
  intros Hs. rewrite postpare_unfold, Hs. cbn.
  destruct (Skeema.deserializationFn c s) as [doc|]; [|discriminate].
  destruct (Skeema.upgrade c doc) as [doc'|] eqn:Hu; [|discriminate].
  intros Hf. destruct (fresh_run _ _ _ _ Hf) as (Hr & Hext & _).
  split; [|exact Hext]. exists doc'. split; [exact Hr|].
  now apply upgrade_version with doc.
Qed.

Lemma mapM_postpare_latest c this :
  RedisSet.schema this = Skeema.MigratingSchema c ->
  forall xs w vs w',
    mapM (fun x => RedisSet.postpare this (Some x)) xs w = (Ok vs, w') ->
    at_latest (Skeema.currentVersion c) (heap w') vs
    /\ exists ext, heap w' = (heap w ++ ext)%list.
Proof.
  intros Hs. induction xs as [|x r IH]; intros w vs w'.
  - cbn. intros [= <- <-]. split; [constructor|].
    exists []. now rewrite app_nil_r.
  - cbn [mapM]. unfold bind at 1.
    destruct (RedisSet.postpare this (Some x) w) as [[v|e] w1] eqn:E1;
      [|discriminate].
    unfold bind at 1.
    destruct (mapM _ r w1) as [[vs'|e] w2] eqn:E2; [|discriminate].
    cbn. intros [= <- <-].
    destruct (postpare_latest c this x w v w1 Hs E1) as ((d & Hd & Hv) & ext1 & H1).
    destruct (IH w1 vs' w2 E2) as (Hall & ext2 & H2).
    split.
    + constructor; [|exact Hall].
      exists d. split; [|exact Hv]. rewrite H2. now apply resolve_app.
    + exists (ext1 ++ ext2)%list. rewrite H2, H1. now rewrite app_assoc.
Qed.

(** C6.  [postpare(null)] is [null]; a serialized member is decoded and
    the outcome passed through the schema's [upgrade]; and with a schema
    chain, every document a read operation ([members], [randmember],
    [union], [intersect], [diff]) returns carries the chain's current
    version, whatever version the member was written at. *)
Theorem postpare_upgrades_to_latest (this : RedisSet.t) :
  (forall w, RedisSet.postpare this None w = (Ok VNull, w))
  /\ (forall s w,
        RedisSet.postpare this (Some s) w
        = match Schema.deserializationFn (RedisSet.schema this) s with
          | None => (Throw SyntaxError, w)
          | Some doc =>
              match Schema.upgrade (RedisSet.schema this) doc with
              | None => (Throw MigrationError, w)
              | Some doc' => Heap.fresh doc' w
              end
          end)
  /\ (forall c r w vs w',
        RedisSet.schema this = Skeema.MigratingSchema c ->
        read r this w = (Ok vs, w') ->
        at_latest (Skeema.currentVersion c) (heap w') vs).
Proof.
  split; [reflexivity|]. split; [apply postpare_unfold|].
  intros c r w vs w' Hs.
  destruct r as [|n|ops|ops|ops]; cbn [read];
    unfold RedisSet.members, RedisSet.randmember, RedisSet.union,
      RedisSet.intersect, RedisSet.diff;
    unfold bind at 1; try unfold bind at 1; unfold RedisSet.lift;
    try (destruct (RedisSet.validateSetIds this ops) as [keys|e];
         [|discriminate]);
    cbn -[mapM RedisSet.postpare];
    intros H; apply (mapM_postpare_latest c this Hs) in H; apply H.
Qed.

(** A member written at version 1 is read at version 3. *)
Lemma postpare_upgrades_to_latest_witness :
  fst (RedisSet.members Employee.setA Employee.world_v1) = Ok [VObj 0]
  /\ at_latest 3
       (heap (snd (RedisSet.members Employee.setA Employee.world_v1)))
       [VObj 0].
Proof.
  split; [vm_compute; reflexivity|].
  apply (proj2 (proj2 (postpare_upgrades_to_latest Employee.setA))
           Employee.employeeSchema Members Employee.world_v1 [VObj 0]).
  - reflexivity.
  - vm_compute. reflexivity.
Defined.

(** ** Preparing documents *)

(** Stamping a stamped object changes nothing. *)
Lemma stamped_idempotent this o :
  RedisSet.stamped this (RedisSet.stamped this o) = RedisSet.stamped this o.
Proof.
  unfold RedisSet.stamped at 1.
  set (o3 := RedisSet.stamped this o).
  assert (Hv : Object.get "version" o3
               = Some (JNum (Schema.currentVersion (RedisSet.schema this)))).
  { unfold o3, RedisSet.stamped. apply get_set_eq. }
  assert (Ht : Object.get "type" o3
               = Some (JStr (Schema.type (RedisSet.schema this)))).
  { unfold o3, RedisSet.stamped. rewrite get_set. cbn. apply get_set_eq. }
  assert (Hi : (Object.is_nullish "id" o3
                || bool_decide (Object.get "id" o3 = Some (JStr EmptyString)))
               = true ->
               Object.get "id" o3 = Some (JStr (RedisSet.id this))).
  { unfold Object.is_nullish, o3, RedisSet.stamped. rewrite !get_set. cbn.
    destruct (Object.is_nullish "id" o
              || bool_decide (Object.get "id" o = Some (JStr EmptyString)))
      eqn:Hn.
    - now rewrite get_set_eq.
    - apply orb_false_iff in Hn as [Hn1 Hn2]. unfold Object.is_nullish in Hn1.
      rewrite Hn1, Hn2. discriminate. }
  destruct (Object.is_nullish "id" o3
            || bool_decide (Object.get "id" o3 = Some (JStr EmptyString))).
  - rewrite (set_same "id" _ o3 (Hi eq_refl)).
    rewrite (set_same "type" _ o3 Ht). apply (set_same "version" _ o3 Hv).
  - rewrite (set_same "type" _ o3 Ht). apply (set_same "version" _ o3 Hv).
Qed.

(** [prepare] on a document: the heap is stamped, and the outcome is the
    serialized contents or a DocumentValidationError. *)
Lemma prepare_run this x w d :
  prepared this (heap w) x = Some d ->
  RedisSet.prepare this x w
  = (if Schema.isValid (RedisSet.schema this) d
     then Ok (Schema.serializationFn (RedisSet.schema this) d)
     else Throw (DocumentValidationError
                   ("Can't create new object, schema error: "
                    +:+ Schema.errors (RedisSet.schema this) d)),
     with_heap w (heap_after_prepare this (heap w) x)).
Proof.
  destruct w as [h st lg dr uu sa].
  unfold prepared, heap_after_prepare, RedisSet.prepare, migrating, with_heap.
  cbn [heap store log draws uuids sample].
  destruct (String.eqb (Schema.className (RedisSet.schema this))
              "MigratingSchema").
  - destruct x as [| | |l]; try discriminate.
    destruct (h !! l) as [o|] eqn:Hl; [|discriminate].
    cbn. intros [= <-]. unfold bind, Heap.read, Heap.write, Heap.deref.
    cbn. rewrite Hl. cbn.
    rewrite list_lookup_insert_eq by (now apply lookup_lt_Some in Hl). cbn.
    destruct (Schema.isValid _ _); reflexivity.
  - intros Hr. unfold bind, Heap.deref, ret. cbn. rewrite Hr.
    destruct (Schema.isValid _ _); reflexivity.
Qed.

(** Preparing one document does not change what another is prepared
    as. *)
Lemma prepared_after_prepare this h x y :
  prepared this (heap_after_prepare this h x) y = prepared this h y.
Proof.
  unfold prepared, heap_after_prepare. destruct (migrating this); [|reflexivity].
  destruct y as [| | |l']; try reflexivity.
  destruct x as [| | |l]; try reflexivity.
  destruct (h !! l) as [o|] eqn:Hl; [|reflexivity].
  destruct (decide (l = l')) as [<-|Hne].
  - rewrite list_lookup_insert_eq by (now apply lookup_lt_Some in Hl).
    rewrite Hl. cbn. now rewrite stamped_idempotent.
  - now rewrite list_lookup_insert_ne.
Qed.

(** Once prepared, a document holds the contents it was prepared as. *)
Lemma resolve_after_prepare this h x d :
  prepared this h x = Some d ->
  Heap.resolve (heap_after_prepare this h x) x = Some d.
Proof.
  unfold prepared, heap_after_prepare. destruct (migrating this); [|tauto].
  destruct x as [| | |l]; try discriminate.
  destruct (h !! l) as [o|] eqn:Hl; [|discriminate].
  cbn. intros [= <-].
  now rewrite list_lookup_insert_eq by (now apply lookup_lt_Some in Hl).
Qed.

(** And it keeps them while other documents are prepared. *)
Lemma resolve_kept this h x y :
  Heap.resolve h x = prepared this h x ->
  Heap.resolve (heap_after_prepare this h y) x = prepared this h x.
Proof.
  unfold prepared, heap_after_prepare. destruct (migrating this); [|tauto].
  destruct x as [| | |l]; try discriminate.
  destruct y as [| | |l']; try tauto.
  destruct (h !! l') as [o'|] eqn:Hl'; [|tauto].
  cbn. destruct (decide (l' = l)) as [->|Hne].
  - rewrite Hl'. cbn. intros [= Ho].
    rewrite list_lookup_insert_eq by (now apply lookup_lt_Some in Hl').
    cbn. now rewrite <- Ho.
  - now rewrite list_lookup_insert_ne.
Qed.

Lemma resolve_kept_all this x r :
  forall h,
    Heap.resolve h x = prepared this h x ->
    Heap.resolve (foldl (heap_after_prepare this) h r) x = prepared this h x.
Proof.
  induction r as [|y r IH]; intros h H; [exact H|].
  cbn. rewrite <- (prepared_after_prepare this h y x). apply IH.
  rewrite prepared_after_prepare. now apply resolve_kept.
Qed.

(** After a list of documents has been prepared, each holds the contents
    it was prepared as. *)
Lemma resolve_after_all this xs :
  forall h,
    Forall (fun x => is_Some (prepared this h x)) xs ->
    Forall (fun x => Heap.resolve (foldl (heap_after_prepare this) h xs) x
                     = prepared this h x) xs.
Proof.
  induction xs as [|x r IH]; intros h H; [constructor|].
  inversion H as [|? ? [d Hd] Hr]; subst. cbn. constructor.
  - rewrite <- (prepared_after_prepare this h x x). apply resolve_kept_all.
    rewrite prepared_after_prepare, Hd. now apply resolve_after_prepare.
  - assert (Hr' : Forall (fun y => is_Some
                     (prepared this (heap_after_prepare this h x) y)) r).
    { eapply Forall_impl; [exact Hr|]. intros y Hy. cbn in Hy.
      now rewrite prepared_after_prepare. }
    specialize (IH _ Hr'). eapply Forall_impl; [exact IH|].
    intros y Hy. cbn in Hy. now rewrite prepared_after_prepare in Hy.
Qed.

(** [docs.map(x => this.prepare(x))]: every document is stamped and the
    members come out, or the first document that fails validation stops
    it with a DocumentValidationError. *)
Lemma mapM_prepare_run this h0 :
  forall xs w,
    (forall y, prepared this (heap w) y = prepared this h0 y) ->
    Forall (fun x => is_Some (prepared this h0 x)) xs ->
    if forallb (valid_in this h0) xs
    then mapM (RedisSet.prepare this) xs w
         = (Ok (map (serialized this h0) xs),
            with_heap w (foldl (heap_after_prepare this) (heap w) xs))
    else exists msg h',
           mapM (RedisSet.prepare this) xs w
           = (Throw (DocumentValidationError msg), with_heap w h').
Proof.
  induction xs as [|x r IH]; intros w Hagree Hdocs.
  - cbn. destruct w; reflexivity.
  - inversion Hdocs as [|? ? [d Hd] Hr]; subst.
    assert (Hd' : prepared this (heap w) x = Some d) by now rewrite Hagree.
    pose proof (prepare_run this x w d Hd') as Hp.
    assert (Hval : valid_in this h0 x
                   = Schema.isValid (RedisSet.schema this) d)
      by (unfold valid_in; now rewrite Hd).
    assert (Hser : serialized this h0 x
                   = Schema.serializationFn (RedisSet.schema this) d)
      by (unfold serialized; now rewrite Hd).
    cbn [forallb map foldl]. rewrite Hval, Hser.
    destruct (Schema.isValid (RedisSet.schema this) d); cbn [andb].
    + specialize (IH (with_heap w (heap_after_prepare this (heap w) x))).
      cbn [heap with_heap] in IH.
      assert (Hagree' : forall y,
                prepared this (heap_after_prepare this (heap w) x) y
                = prepared this h0 y).
      { intros y. now rewrite prepared_after_prepare. }
      specialize (IH Hagree' Hr).
      destruct (forallb (valid_in this h0) r).
      * cbn [mapM]. unfold bind. rewrite Hp, IH. reflexivity.
      * destruct IH as (msg & h' & IH). exists msg, h'.
        cbn [mapM]. unfold bind. rewrite Hp, IH. reflexivity.
    + eexists _, _. cbn [mapM]. unfold bind. rewrite Hp. reflexivity.
Qed.

Lemma refreshExpiry_run this w :
  RedisSet.refreshExpiry this w
  = (Ok tt, mkWorld (heap w) (store w) (log w ++ expiry_commands this)
                    (draws w) (uuids w) (sample w)).
Proof.
  destruct w as [h st lg dr uu sa].
  unfold RedisSet.refreshExpiry, expiry_commands.
  destruct (RedisSet.expirySeconds this) as [n|]; cbn.
  - destruct (n =? 0); cbn; [now rewrite app_nil_r | reflexivity].
  - now rewrite app_nil_r.
Qed.

Lemma forallb_false_Exists {A} (f : A -> bool) l :
  forallb f l = false <-> Exists (fun x => f x = false) l.
Proof.
  induction l as [|x r IH]; cbn.
  - split; [discriminate | intros H; inversion H].
  - destruct (f x) eqn:Hx; cbn.
    + rewrite IH. split; [now right|].
      intros H; inversion H; subst; [congruence | assumption].
    + split; [now left | reflexivity].
Qed.

(** What [add] does on documents. *)
Lemma add_run this doc w :
  doc <> RedisSet.One VNull ->
  Forall (fun x => is_Some (prepared this (heap w) x)) (elements_of doc) ->
  if forallb (valid_in this (heap w)) (elements_of doc)
  then RedisSet.add this doc w
       = (Ok doc,
          mkWorld (foldl (heap_after_prepare this) (heap w) (elements_of doc))
            (<[RedisSet.id this :=
                 Store.at_key (store w) (RedisSet.id this)
                 ∪ list_to_set (map (serialized this (heap w))
                                    (elements_of doc))]> (store w))
            ((log w
              ++ [Tance.Sadd (RedisSet.id this)
                    (map (serialized this (heap w)) (elements_of doc))])
             ++ expiry_commands this)
            (draws w) (uuids w) (sample w))
  else exists msg h',
         RedisSet.add this doc w
         = (Throw (DocumentValidationError msg), with_heap w h').
Proof.
  intros Hnn Hdocs.
  pose proof (mapM_prepare_run this (heap w) (elements_of doc) w
                (fun y => eq_refl) Hdocs) as Hm.
  destruct (forallb (valid_in this (heap w)) (elements_of doc)) eqn:Hall.
  - assert (Hrest :
      (let* ms := mapM (RedisSet.prepare this) (elements_of doc) in
       let* _ := Store.sadd (RedisSet.id this) ms in
       let* _ := RedisSet.refreshExpiry this in
       ret doc) w
      = (Ok doc,
          mkWorld (foldl (heap_after_prepare this) (heap w) (elements_of doc))
            (<[RedisSet.id this :=
                 Store.at_key (store w) (RedisSet.id this)
                 ∪ list_to_set (map (serialized this (heap w))
                                    (elements_of doc))]> (store w))
            ((log w
              ++ [Tance.Sadd (RedisSet.id this)
                    (map (serialized this (heap w)) (elements_of doc))])
             ++ expiry_commands this)
            (draws w) (uuids w) (sample w))).
    { unfold bind at 1. rewrite Hm. unfold bind at 1. cbn.
      unfold bind. rewrite refreshExpiry_run. reflexivity. }
    destruct doc as [d|ds]; [|exact Hrest].
    destruct d; try congruence; rewrite <- Hrest; cbn [elements_of mapM];
      unfold RedisSet.add, bind;
      destruct (RedisSet.prepare this _ w) as [[m|e] w1]; reflexivity.
  - destruct Hm as (msg & h' & Hm). exists msg, h'.
    assert (Hrest :
      (let* ms := mapM (RedisSet.prepare this) (elements_of doc) in
       let* _ := Store.sadd (RedisSet.id this) ms in
       let* _ := RedisSet.refreshExpiry this in
       ret doc) w
      = (Throw (DocumentValidationError msg), with_heap w h')).
    { unfold bind at 1. now rewrite Hm. }
    destruct doc as [d|ds]; [|exact Hrest].
    destruct d; try congruence; rewrite <- Hrest; cbn [elements_of mapM];
      unfold RedisSet.add, bind;
      destruct (RedisSet.prepare this _ w) as [[m|e] w1]; reflexivity.
Qed.

(** ** add (C5) *)

(** C5, as the code has it.  On [null], or when some document fails
    validation once prepared, [add] raises DocumentValidationError, and in
    no other case; nothing has then been sent to the store.  Otherwise it
    sends the prepared documents in one [sadd], refreshes the expiry and
    returns the very value it was given: not the serialized form, but
    each document holds by then the contents it was prepared as, so an
    object of a version-aware schema carries the id, type and version that
    [prepare] has stamped on it. *)
Theorem add_returns_stamped_input (this : RedisSet.t)
    (doc : RedisSet.Input) (w : World) :
  doc = RedisSet.One VNull
  \/ Forall (fun x => is_Some (prepared this (heap w) x)) (elements_of doc) ->
  (is_DocumentValidationError (fst (RedisSet.add this doc w)) = true
   <-> doc = RedisSet.One VNull
       \/ Exists (fun x => valid_in this (heap w) x = false) (elements_of doc))
  /\ (is_DocumentValidationError (fst (RedisSet.add this doc w)) = true ->
        log (snd (RedisSet.add this doc w)) = log w
        /\ store (snd (RedisSet.add this doc w)) = store w)
  /\ (is_DocumentValidationError (fst (RedisSet.add this doc w)) = false ->
        fst (RedisSet.add this doc w) = Ok doc
        /\ log (snd (RedisSet.add this doc w))
           = ((log w
               ++ [Tance.Sadd (RedisSet.id this)
                     (map (serialized this (heap w)) (elements_of doc))])
              ++ expiry_commands this)%list
        /\ store (snd (RedisSet.add this doc w))
           = <[RedisSet.id this :=
                 Store.at_key (store w) (RedisSet.id this)
                 ∪ list_to_set (map (serialized this (heap w))
                                    (elements_of doc))]> (store w)
        /\ Forall (fun x =>
                     Heap.resolve (heap (snd (RedisSet.add this doc w))) x
                     = prepared this (heap w) x) (elements_of doc)).
Proof.
  intros Hin.
  assert (Hnull : doc = RedisSet.One VNull \/ doc <> RedisSet.One VNull).
  { destruct doc as [[| | |]|]; (left; reflexivity) || (right; discriminate). }
  destruct Hnull as [->|Hnn].
  - cbn. repeat split; auto; discriminate.
  - destruct Hin as [Hin|Hdocs]; [contradiction|].
    pose proof (add_run this doc w Hnn Hdocs) as Hrun.
    destruct (forallb (valid_in this (heap w)) (elements_of doc)) eqn:Hall.
    + rewrite Hrun. cbn [fst snd is_DocumentValidationError heap store log].
      split; [|split].
      * split; [discriminate|]. intros [Hc|Hex]; [contradiction|].
        apply forallb_false_Exists in Hex. congruence.
      * discriminate.
      * intros _. repeat split. now apply resolve_after_all.
    + destruct Hrun as (msg & h' & Hrun). rewrite Hrun.
      cbn [fst snd is_DocumentValidationError with_heap heap store log].
      split; [|split].
      * split; [|reflexivity]. intros _. right.
        now apply forallb_false_Exists.
      * auto.
      * discriminate.
Qed.

(** An employee without the metadata, added to collection A: the object
    that comes back has the id, type and version stamped on it. *)
Lemma add_returns_input_unchanged_counterexample :
  fst (RedisSet.add Employee.setA (RedisSet.One (VObj 0)) Employee.world1)
  = Ok (RedisSet.One (VObj 0))
  /\ Heap.resolve (heap Employee.world1) (VObj 0)
     = Some (DObj Employee.currentEmployee)
  /\ Heap.resolve
       (heap (snd (RedisSet.add Employee.setA (RedisSet.One (VObj 0))
                     Employee.world1))) (VObj 0)
     = Some (DObj Employee.storedEmployee)
  /\ Heap.resolve
       (heap (snd (RedisSet.add Employee.setA (RedisSet.One (VObj 0))
                     Employee.world1))) (VObj 0)
     <> Heap.resolve (heap Employee.world1) (VObj 0).
Proof. vm_compute. repeat split; discriminate. Qed.

Lemma add_returns_stamped_input_witness :
  fst (RedisSet.add Employee.setA (RedisSet.One (VObj 0)) Employee.world1)
  = Ok (RedisSet.One (VObj 0))
  /\ Forall (fun x =>
               Heap.resolve
                 (heap (snd (RedisSet.add Employee.setA
                               (RedisSet.One (VObj 0)) Employee.world1))) x
               = prepared Employee.setA (heap Employee.world1) x)
            [VObj 0].
Proof.
  assert (Hin : RedisSet.One (VObj 0) = RedisSet.One VNull
                \/ Forall (fun x => is_Some
                             (prepared Employee.setA (heap Employee.world1) x))
                     (elements_of (RedisSet.One (VObj 0)))).
  { right. constructor; [|constructor]. vm_compute. eauto. }
  destruct (add_returns_stamped_input Employee.setA (RedisSet.One (VObj 0))
              Employee.world1 Hin) as (_ & _ & H).
  destruct (H ltac:(vm_compute; reflexivity)) as (H1 & _ & _ & H4).
  split; [exact H1 | exact H4].
Defined.

(** Two names added at once to the collection of names: one [sadd] with
    both, then the expiry. *)
Example add_names_batch :
  fst (RedisSet.add Employee.names
         (RedisSet.Many [VStr "ann"; VStr "bob"]) Employee.world0)
  = Ok (RedisSet.Many [VStr "ann"; VStr "bob"])
  /\ log (snd (RedisSet.add Employee.names
                 (RedisSet.Many [VStr "ann"; VStr "bob"]) Employee.world0))
     = [Tance.Sadd "set-{string-ns1}-n" ["ann"; "bob"];
        Tance.Expire "set-{string-ns1}-n" 60].
Proof. vm_compute. split; reflexivity. Qed.

(** A number among the names stops the batch before anything is sent. *)
Example add_names_invalid :
  is_DocumentValidationError
    (fst (RedisSet.add Employee.names
            (RedisSet.Many [VStr "ann"; VNum 7]) Employee.world0)) = true
  /\ log (snd (RedisSet.add Employee.names
                 (RedisSet.Many [VStr "ann"; VNum 7]) Employee.world0))
     = [].
Proof. vm_compute. split; reflexivity. Qed.

(** ** add, then rem (C7) *)

Lemma gset_add_remove (s : gset string) (m : string) :
  (s ∪ list_to_set [m]) ∖ {[m]} = s ∖ {[m]}.
Proof.
  apply set_eq. intros x.
  rewrite !elem_of_difference, elem_of_union, elem_of_list_to_set,
    elem_of_singleton, list_elem_of_singleton.
  tauto.
Qed.

Lemma gset_not_in_removed (s : gset string) (m : string) : m ∉ s ∖ {[m]}.
Proof.
  rewrite elem_of_difference, elem_of_singleton. intros [_ H]. now apply H.
Qed.

Lemma gset_removed_empty (s : gset string) (m : string) :
  s ⊆ {[m]} -> s ∖ {[m]} = ∅.
Proof.
  intros H. apply set_eq. intros x.
  rewrite elem_of_difference, elem_of_singleton. split.
  - intros [Hx Hn]. exfalso. apply Hn. specialize (H x Hx).
    now apply elem_of_singleton in H.
  - intros Hx. now apply elem_of_empty in Hx.
Qed.

Lemma rem_run this x w d :
  prepared this (heap w) x = Some d ->
  Schema.isValid (RedisSet.schema this) d = true ->
  RedisSet.rem this x w
  = (Ok x,
     mkWorld (heap_after_prepare this (heap w) x)
       (<[RedisSet.id this :=
            Store.at_key (store w) (RedisSet.id this)
            ∖ {[Schema.serializationFn (RedisSet.schema this) d]}]> (store w))
       ((log w
         ++ [Tance.Srem (RedisSet.id this)
               (Schema.serializationFn (RedisSet.schema this) d)])
        ++ expiry_commands this)
       (draws w) (uuids w) (sample w)).
Proof.
  intros Hp Hv. unfold RedisSet.rem. unfold bind at 1.
  rewrite (prepare_run this x w d Hp), Hv.
  unfold bind at 1. cbn. unfold bind. rewrite refreshExpiry_run. reflexivity.
Qed.

(** C7.  For a valid document [d], after [add(d)] and then [rem(d)] the
    member [d] is stored as is not in the collection: the set at the
    collection's key is what it was before, less that member.  [members]
    then reads exactly the other members; on a collection that held
    nothing else it returns no document. *)
Theorem add_then_rem_cancels (this : RedisSet.t) (d : Val) (doc : Doc)
    (w : World) :
  d <> VNull ->
  prepared this (heap w) d = Some doc ->
  Schema.isValid (RedisSet.schema this) doc = true ->
  fst (RedisSet.add this (RedisSet.One d) w) = Ok (RedisSet.One d)
  /\ fst (RedisSet.rem this d (snd (RedisSet.add this (RedisSet.One d) w)))
     = Ok d
  /\ Store.at_key
       (store (snd (RedisSet.rem this d
                      (snd (RedisSet.add this (RedisSet.One d) w)))))
       (RedisSet.id this)
     = Store.at_key (store w) (RedisSet.id this)
       ∖ {[Schema.serializationFn (RedisSet.schema this) doc]}
  /\ (Schema.serializationFn (RedisSet.schema this) doc
      ∉ Store.at_key
          (store (snd (RedisSet.rem this d
                         (snd (RedisSet.add this (RedisSet.One d) w)))))
          (RedisSet.id this))
  /\ RedisSet.members this
       (snd (RedisSet.rem this d (snd (RedisSet.add this (RedisSet.One d) w))))
     = (let* _ := Store.smembers (RedisSet.id this) in
        mapM (fun x => RedisSet.postpare this (Some x))
          (elements (Store.at_key (store w) (RedisSet.id this)
                     ∖ {[Schema.serializationFn (RedisSet.schema this) doc]})))
         (snd (RedisSet.rem this d (snd (RedisSet.add this (RedisSet.One d) w))))
  /\ (Store.at_key (store w) (RedisSet.id this)
      ⊆ {[Schema.serializationFn (RedisSet.schema this) doc]} ->
      fst (RedisSet.members this
             (snd (RedisSet.rem this d
                     (snd (RedisSet.add this (RedisSet.One d) w)))))
      = Ok []).
Proof.
  intros Hnn Hp Hv.
  set (m := Schema.serializationFn (RedisSet.schema this) doc).
  assert (Hdocs : Forall (fun x => is_Some (prepared this (heap w) x))
                    (elements_of (RedisSet.One d))).
  { constructor; [|constructor]. rewrite Hp. eauto. }
  assert (Hne : RedisSet.One d <> RedisSet.One VNull) by congruence.
  pose proof (add_run this (RedisSet.One d) w Hne Hdocs) as Hadd.
  assert (Hser : serialized this (heap w) d = m)
    by (unfold serialized; now rewrite Hp).
  cbn [elements_of forallb map foldl] in Hadd.
  unfold valid_in in Hadd. rewrite Hp, Hv, Hser in Hadd. cbn [andb] in Hadd.
  rewrite Hadd. cbn [fst snd].
  match goal with
  | |- context [RedisSet.rem this d ?w1] =>
      assert (Hp1 : prepared this (heap w1) d = Some doc)
        by (cbn [heap]; now rewrite prepared_after_prepare);
      rewrite (rem_run this d w1 doc Hp1 Hv)
  end.
  cbn [fst snd heap store log draws uuids sample]. fold m.
  assert (Hset : Store.at_key
                   (<[RedisSet.id this :=
                        Store.at_key
                          (<[RedisSet.id this :=
                               Store.at_key (store w) (RedisSet.id this)
                               ∪ list_to_set [m]]> (store w))
                          (RedisSet.id this) ∖ {[m]}]>
                      (<[RedisSet.id this :=
                           Store.at_key (store w) (RedisSet.id this)
                           ∪ list_to_set [m]]> (store w)))
                   (RedisSet.id this)
                 = Store.at_key (store w) (RedisSet.id this) ∖ {[m]}).
  { unfold Store.at_key at 1. rewrite lookup_insert_eq. cbn [default].
    unfold Store.at_key at 1. rewrite lookup_insert_eq. cbn [default].
    apply gset_add_remove. }
  split; [reflexivity|]. split; [reflexivity|]. split; [exact Hset|].
  split; [rewrite Hset; apply gset_not_in_removed|].
  assert (Hmem : forall w2,
            Store.at_key (store w2) (RedisSet.id this)
            = Store.at_key (store w) (RedisSet.id this) ∖ {[m]} ->
            RedisSet.members this w2
            = (let* _ := Store.smembers (RedisSet.id this) in
               mapM (fun x => RedisSet.postpare this (Some x))
                 (elements (Store.at_key (store w) (RedisSet.id this) ∖ {[m]})))
                w2).
  { intros w2 Hw2. unfold RedisSet.members, bind, Store.smembers, Store.command.
    now rewrite Hw2. }
  split.
  - apply Hmem. exact Hset.
  - intros Hsub. rewrite Hmem by exact Hset.
    rewrite (gset_removed_empty _ _ Hsub).
    rewrite elements_empty. reflexivity.
Qed.

(** The employee added to the empty collection A and removed again. *)
Lemma add_then_rem_cancels_witness :
  fst (RedisSet.members Employee.setA
         (snd (RedisSet.rem Employee.setA (VObj 0)
                 (snd (RedisSet.add Employee.setA (RedisSet.One (VObj 0))
                         Employee.world1)))))
  = Ok [].
Proof.
  assert (Hnn : VObj 0 <> VNull) by discriminate.
  destruct (add_then_rem_cancels Employee.setA (VObj 0)
              (DObj Employee.storedEmployee) Employee.world1 Hnn
              eq_refl eq_refl) as (_ & _ & _ & _ & _ & H).
  apply H. unfold Store.at_key. cbn [Employee.world1 store].
  rewrite lookup_empty. apply empty_subseteq.
Defined.

(** ** modify (C4) *)

(** On a collection of plain strings the converging calls are the two the
    change asks for: one [srem] for the name that went, one [sadd] for the
    name that came. *)
Example modify_names :
  fst (RedisSet.modify Employee.names Employee.rename Employee.world_names)
  = Ok ([VStr "ann"; VStr "bob"], [VStr "bob"; VStr "cat"])
  /\ List.filter
       (fun c => match c with Tance.Expire _ _ => false | _ => true end)
       (log (snd (RedisSet.modify Employee.names Employee.rename
                    Employee.world_names)))
     = [Tance.Smembers "set-{string-ns1}-n";
        Tance.Srem "set-{string-ns1}-n" "ann";
        Tance.Sadd "set-{string-ns1}-n" ["cat"]].
Proof. vm_compute. split; reflexivity. Qed.

(** C4.  On collection A, holding one employee: when [changeFn] returns
    the working set as it is, [modify] still sends an [srem] and an [sadd]
    for the member, for the object read from the store and its copy in the
    working set are two objects; and when [changeFn] adds an employee that
    fails validation, the [add] made for it raises
    DocumentValidationError and sends nothing, yet [modify] returns
    [{original, changed}] as if all had gone well. *)
Theorem modify_repeats_and_swallows :
  fst (RedisSet.modify Employee.setA Employee.keep Employee.world2)
  = Ok ([VObj 1], [VObj 2])
  /\ log (snd (RedisSet.modify Employee.setA Employee.keep Employee.world2))
     = (log Employee.world2
        ++ [Tance.Smembers "set-{employee-ns1}-a";
            Tance.Srem "set-{employee-ns1}-a"
              (Json.stringify (DObj Employee.storedEmployee));
            Tance.Sadd "set-{employee-ns1}-a"
              [Json.stringify (DObj Employee.storedEmployee)]])%list
  /\ fst (RedisSet.modify Employee.setA Employee.hire Employee.world2)
     = Ok ([VObj 1], [VObj 2; VObj 3])
  /\ is_DocumentValidationError
       (fst (RedisSet.add Employee.setA (RedisSet.One (VObj 3))
               (snd (RedisSet.modify Employee.setA Employee.hire
                       Employee.world2)))) = true
  /\ log (snd (RedisSet.modify Employee.setA Employee.hire Employee.world2))
     = (log Employee.world2
        ++ [Tance.Smembers "set-{employee-ns1}-a";
            Tance.Srem "set-{employee-ns1}-a"
              (Json.stringify (DObj Employee.storedEmployee));
            Tance.Sadd "set-{employee-ns1}-a"
              [Json.stringify (DObj Employee.storedEmployee)]])%list.
Proof. vm_compute. repeat split. Qed.

(** * Further properties of the collection *)

(** ** Construction *)

Lemma supplied_nonempty i s : supplied i = Some s -> s <> EmptyString.
Proof.
  destruct i as [t|]; cbn; [|discriminate].
  destruct (String.eqb_spec t EmptyString); [discriminate|]. congruence.
Qed.

(** What the constructor does with a client at hand. *)
Lemma constructor_run dflt c i sch ns exp w :
  RedisSet.constructor dflt (RedisSet.mkOptions (Some c) i sch ns exp) w
  = match supplied i with
    | Some s =>
        (Ok (RedisSet.mk c (schema_or_default dflt sch exp)
               (JsString.or_else ns EmptyString) s exp), w)
    | None =>
        (Ok (RedisSet.mk c (schema_or_default dflt sch exp)
               (JsString.or_else ns EmptyString)
               (generated_key (schema_or_default dflt sch exp)
                  (JsString.or_else ns EmptyString) (uuids w (draws w)))
               exp),
         mkWorld (heap w) (store w) (log w) (S (draws w)) (uuids w)
                 (sample w))
    end.
Proof.
  unfold RedisSet.constructor, supplied;
    cbn [RedisSet.opt_tance RedisSet.opt_schema RedisSet.opt_namespace
         RedisSet.opt_id RedisSet.opt_expirySeconds].
  destruct i as [s|]; [destruct (String.eqb s EmptyString)|]; reflexivity.
Qed.

(** X1.  The constructor fails exactly when it is given no client.  A
    handle it returns has an id that is not empty and a namespace and a
    type that its generated id, if it has one, is built from; building it
    sends nothing, and touches neither the store nor the heap. *)
Theorem constructor_handle_invariant (dflt : option Z -> Schema.t)
    (o : RedisSet.Options) (w : World) :
  (RedisSet.opt_tance o = None <->
   is_DocumentValidationError (fst (RedisSet.constructor dflt o w)) = true)
  /\ (forall h w',
        RedisSet.constructor dflt o w = (Ok h, w') ->
        RedisSet.id h <> EmptyString
        /\ (supplied (RedisSet.opt_id o) = None ->
            RedisSet.id h
            = generated_key (RedisSet.schema h) (RedisSet.namespace h)
                            (uuids w (draws w)))
        /\ log w' = log w /\ store w' = store w /\ heap w' = heap w).
Proof.
  destruct o as [[c|] i sch ns exp]; cbn [RedisSet.opt_tance RedisSet.opt_id].
  - rewrite constructor_run. split.
    + split; [discriminate|]. destruct (supplied i); discriminate.
    + intros h w'. destruct (supplied i) as [s|] eqn:Hs; intros [= <- <-];
        cbn [RedisSet.id RedisSet.schema RedisSet.namespace log store heap].
      * repeat split; try discriminate. now apply supplied_nonempty with i.
      * repeat split. discriminate.
  - split; [now split|]. intros h w'. discriminate.
Qed.

(** ** Generated keys *)

Lemma append_inv_head (p a b : string) : p +:+ a = p +:+ b -> a = b.
Proof.
  induction p as [|c p IH]; cbn; [tauto|]. intros [= H]. now apply IH.
Qed.

(** X2.  Two keys generated for the same schema and namespace from
    different values of [uuid()] are different keys. *)
Theorem generated_keys_differ (sch : Schema.t) (ns u1 u2 : string) :
  u1 <> u2 -> generated_key sch ns u1 <> generated_key sch ns u2.
Proof.
  unfold generated_key. intros Hne H. apply Hne.
  do 5 apply append_inv_head in H. exact H.
Qed.

Lemma generated_keys_differ_witness :
  generated_key (Skeema.MigratingSchema Employee.employeeSchema) "ns1"
                (uuids Employee.world0 0)
  <> generated_key (Skeema.MigratingSchema Employee.employeeSchema) "ns1"
                   (uuids Employee.world0 1).
Proof.
  apply (generated_keys_differ
           (Skeema.MigratingSchema Employee.employeeSchema) "ns1"
           (uuids Employee.world0 0) (uuids Employee.world0 1)).
  vm_compute. discriminate.
Defined.

Lemma lower_ascii_idempotent c :
  JsString.lower_ascii (JsString.lower_ascii c) = JsString.lower_ascii c.
Proof. destruct c as [[] [] [] [] [] [] [] []]; reflexivity. Qed.

Lemma toLowerCase_idempotent s :
  JsString.toLowerCase (JsString.toLowerCase s) = JsString.toLowerCase s.
Proof.
  induction s as [|c r IH]; [reflexivity|].
  cbn. now rewrite lower_ascii_idempotent, IH.
Qed.

Lemma toLowerCase_slice0 n :
  forall s,
    JsString.toLowerCase (JsString.slice0 n s)
    = JsString.slice0 n (JsString.toLowerCase s).
Proof.
  induction n as [|n IH]; intros [|c r]; cbn; try reflexivity.
  now rewrite IH.
Qed.

Lemma slice0_length n :
  forall s, String.length (JsString.slice0 n s)
            = Nat.min n (String.length s).
Proof.
  induction n as [|n IH]; intros [|c r]; cbn; try reflexivity.
  now rewrite IH.
Qed.

Lemma toLowerCase_length s :
  String.length (JsString.toLowerCase s) = String.length s.
Proof. induction s as [|c r IH]; cbn; [reflexivity | now rewrite IH]. Qed.

Lemma lower_ascii_below c :
  Nat.ltb (nat_of_ascii c) 128 = true ->
  Nat.ltb (nat_of_ascii (JsString.lower_ascii c)) 128 = true.
Proof. destruct c as [[] [] [] [] [] [] [] []]; vm_compute; tauto. Qed.

Lemma ascii_only_segment n :
  forall s,
    ascii_only s = true ->
    ascii_only (JsString.slice0 n (JsString.toLowerCase s)) = true.
Proof.
  induction n as [|n IH]; intros [|c r]; cbn; try reflexivity.
  intros H. apply andb_true_iff in H as [Hc Hr].
  apply andb_true_iff. split; [now apply lower_ascii_below | now apply IH].
Qed.

(** X3.  For a type name written in ASCII, the type segment of a
    generated key is as long as the type name, and never longer than 18
    characters; it is ASCII and holds no upper-case letter: putting it in
    lower case again changes nothing. *)
Theorem type_segment_bounded_lowercase (ty : string) :
  ascii_only ty = true ->
  String.length (JsString.slice0 18 (JsString.toLowerCase ty))
  = Nat.min 18 (String.length ty)
  /\ ascii_only (JsString.slice0 18 (JsString.toLowerCase ty)) = true
  /\ JsString.toLowerCase (JsString.slice0 18 (JsString.toLowerCase ty))
     = JsString.slice0 18 (JsString.toLowerCase ty).
Proof.
  intros Ha. split; [|split].
  - now rewrite slice0_length, toLowerCase_length.
  - now apply ascii_only_segment.
  - now rewrite toLowerCase_slice0, toLowerCase_idempotent.
Qed.

Lemma type_segment_bounded_lowercase_witness :
  String.length
    (JsString.slice0 18 (JsString.toLowerCase "EmployeeOfTheMonthAward"))
  = 18%nat
  /\ JsString.slice0 18 (JsString.toLowerCase "EmployeeOfTheMonthAward")
     = "employeeofthemonth".
Proof.
  split.
  - exact (proj1 (type_segment_bounded_lowercase "EmployeeOfTheMonthAward"
                    eq_refl)).
  - reflexivity.
Defined.

(** ** The store variants of the group operations *)

Lemma sibling_exact dflt this i w :
  RedisSet.sibling dflt this i w
  = match supplied i with
    | Some s =>
        (Ok (RedisSet.mk (RedisSet.tance this) (RedisSet.schema this)
               (RedisSet.namespace this) s (RedisSet.expirySeconds this)), w)
    | None =>
        (Ok (RedisSet.mk (RedisSet.tance this) (RedisSet.schema this)
               (RedisSet.namespace this)
               (generated_key (RedisSet.schema this) (RedisSet.namespace this)
                  (uuids w (draws w)))
               (RedisSet.expirySeconds this)),
         mkWorld (heap w) (store w) (log w) (S (draws w)) (uuids w)
                 (sample w))
    end.
Proof.
  unfold RedisSet.sibling. rewrite constructor_run, or_else_empty.
  reflexivity.
Qed.

Ltac store_case dflt this i w Hv :=
  cbn [perform]; unfold RedisSet.unionStore, RedisSet.unionStoreAt,
    RedisSet.intersectStore, RedisSet.intersectStoreAt, RedisSet.diffStore,
    RedisSet.diffStoreAt;
  unfold bind, RedisSet.lift; rewrite Hv, (sibling_exact dflt this i w).

(** X4.  A store variant whose operands pass validation sends one command,
    the store's union, intersection or difference of this collection's key
    and the operands' keys into the destination; the destination then
    holds the combined set.  It returns a handle on the destination with
    this collection's client, schema, namespace and expirySeconds.  The
    destination is a key generated for this collection's type and
    namespace, or for a [*StoreAt] variant the id supplied.  No [expire]
    is sent for the destination. *)
Theorem store_variant_writes_result (dflt : option Z -> Schema.t)
    (g : GroupOperation) (this : RedisSet.t)
    (setIds : list RedisSet.Operand) (w : World) (dest : string) :
  Forall (fun op => ~ mismatched this op) setIds ->
  destination g this w = Some dest ->
  fst (perform dflt g this setIds w)
  = Ok (inr (RedisSet.mk (RedisSet.tance this) (RedisSet.schema this)
               (RedisSet.namespace this) dest (RedisSet.expirySeconds this)))
  /\ log (snd (perform dflt g this setIds w))
     = (log w
        ++ store_command g dest
             (RedisSet.id this :: map operand_key setIds))%list
  /\ store (snd (perform dflt g this setIds w))
     = <[dest := combined g (store w)
                   (RedisSet.id this :: map operand_key setIds)]> (store w)
  /\ heap (snd (perform dflt g this setIds w)) = heap w.
Proof.
  intros Hok Hd. pose proof (validateSetIds_match this setIds Hok) as Hv.
  destruct g as [| |i| | |i| | |i]; cbn [destination] in Hd;
    try discriminate;
    first [ store_case dflt this i w Hv
          | store_case dflt this (@None string) w Hv ];
    try (destruct (supplied i) as [s|]);
    cbn in Hd |- *; injection Hd as <-; repeat split.
Qed.

(** The employee collections A and A' united into a generated key. *)
Lemma store_variant_writes_result_witness :
  log (snd (perform Employee.stringSchema UnionStore Employee.setA
              [RedisSet.Handle Employee.setA'] Employee.world0))
  = [Tance.Sunionstore "set-{employee-ns1}-uuid0"
       ["set-{employee-ns1}-a"; "set-{employee-ns1}-c"]].
Proof.
  assert (Hok : Forall (fun op => ~ mismatched Employee.setA op)
                  [RedisSet.Handle Employee.setA']).
  { repeat constructor. cbn. intuition congruence. }
  assert (Hd : destination UnionStore Employee.setA Employee.world0
               = Some "set-{employee-ns1}-uuid0")
    by (vm_compute; reflexivity).
  exact (proj1 (proj2 (store_variant_writes_result Employee.stringSchema
                         UnionStore Employee.setA
                         [RedisSet.Handle Employee.setA'] Employee.world0
                         "set-{employee-ns1}-uuid0" Hok Hd))).
Defined.

(** X5.  The handle a store variant returns can be combined with the
    collection it came from: each passes the other's validation. *)
Theorem store_result_is_combinable (dflt : option Z -> Schema.t)
    (g : GroupOperation) (this : RedisSet.t)
    (setIds : list RedisSet.Operand) (w : World) (h : RedisSet.t)
    (w' : World) :
  perform dflt g this setIds w = (Ok (inr h), w') ->
  RedisSet.validateSetIds this [RedisSet.Handle h] = Ok [RedisSet.id h]
  /\ RedisSet.validateSetIds h [RedisSet.Handle this]
     = Ok [RedisSet.id this].
Proof.
  assert (Hsame : forall h',
            RedisSet.namespace h' = RedisSet.namespace this ->
            RedisSet.schema h' = RedisSet.schema this ->
            RedisSet.validateSetIds this [RedisSet.Handle h']
            = Ok [RedisSet.id h']
            /\ RedisSet.validateSetIds h' [RedisSet.Handle this]
               = Ok [RedisSet.id this]).
  { intros h' Hn Hs. cbn. rewrite Hn, Hs, !String.eqb_refl. now cbn. }
  destruct g as [| |i| | |i| | |i];
    cbn [perform]; unfold RedisSet.union, RedisSet.intersect, RedisSet.diff,
      RedisSet.unionStore, RedisSet.unionStoreAt, RedisSet.intersectStore,
      RedisSet.intersectStoreAt, RedisSet.diffStore, RedisSet.diffStoreAt;
    unfold bind, RedisSet.lift;
    try rewrite (sibling_exact dflt this i w);
    try rewrite (sibling_exact dflt this (@None string) w);
    try (destruct (supplied i) as [s|]);
    destruct (RedisSet.validateSetIds this setIds) as [keys|e];
    cbn -[mapM RedisSet.postpare RedisSet.validateSetIds];
    try discriminate;
    try (intros [= <- <-]; now apply Hsame);
    match goal with
    | |- context [mapM ?f ?xs ?w0] =>
        destruct (mapM f xs w0) as [[?|?] ?]; discriminate
    end.
Qed.

Lemma store_result_is_combinable_witness :
  RedisSet.validateSetIds Employee.setA
    [RedisSet.Handle
       (RedisSet.mk Employee.client
          (Skeema.MigratingSchema Employee.employeeSchema) "ns1" "backup"
          None)]
  = Ok ["backup"].
Proof.
  refine (proj1 (store_result_is_combinable Employee.stringSchema
                   (DiffStoreAt (Some "backup")) Employee.setA []
                   Employee.world0 _ _ _)).
  vm_compute. reflexivity.
Defined.

(** ** Reads *)

(** The documents a list of members is read as are those the members
    stand for, in the order of the list; reading succeeds exactly when
    every member stands for a document. *)
Lemma mapM_postpare_contents this xs :
  forall w vs w',
    mapM (fun x => RedisSet.postpare this (Some x)) xs w = (Ok vs, w') ->
    contents (heap w') vs = map (decoded this) xs
    /\ Forall (fun x => is_Some (decoded this x)) xs
    /\ exists ext, heap w' = (heap w ++ ext)%list.
Proof.
  induction xs as [|x r IH]; intros w vs w'.
  - cbn. intros [= <- <-]. repeat split; [constructor|].
    exists []. now rewrite app_nil_r.
  - cbn [mapM]. unfold bind at 1. rewrite postpare_unfold.
    destruct (Schema.deserializationFn (RedisSet.schema this) x) as [d|]
      eqn:Hd; [|discriminate].
    destruct (Schema.upgrade (RedisSet.schema this) d) as [d'|] eqn:Hu;
      [|discriminate].
    assert (Hdec : decoded this x = Some d')
      by (unfold decoded; now rewrite Hd).
    destruct (Heap.fresh d' w) as [[v|e] w1] eqn:Hf; [|discriminate].
    unfold bind at 1.
    destruct (mapM _ r w1) as [[vs'|e] w2] eqn:E2; [|discriminate].
    cbn [ret]. intros [= <- <-].
    destruct (fresh_run _ _ _ _ Hf) as (Hr & (ext1 & H1) & _).
    destruct (IH w1 vs' w2 E2) as (Hc & Hall & ext2 & H2).
    split; [|split].
    + unfold contents in *. cbn [map]. rewrite Hc, Hdec. f_equal.
      rewrite H2. now apply resolve_app.
    + constructor; [|exact Hall]. rewrite Hdec. eauto.
    + exists (ext1 ++ ext2)%list. rewrite H2, H1. now rewrite app_assoc.
Qed.

Lemma mapM_postpare_returns this xs :
  Forall (fun x => is_Some (decoded this x)) xs ->
  forall w, exists vs w',
    mapM (fun x => RedisSet.postpare this (Some x)) xs w = (Ok vs, w').
Proof.
  induction 1 as [|x r [d' Hd] _ IH]; intros w; [cbn; eauto|].
  cbn [mapM]. unfold bind at 1. rewrite postpare_unfold.
  unfold decoded in Hd.
  destruct (Schema.deserializationFn (RedisSet.schema this) x) as [d|];
    [|discriminate].
  rewrite Hd.
  destruct (Heap.fresh d' w) as [[v|e] w1] eqn:Hf;
    [|destruct d'; discriminate].
  destruct (IH w1) as (vs & w' & Hm). unfold bind. rewrite Hm. eauto.
Qed.

Lemma postpare_effects this s w :
  store (snd (RedisSet.postpare this s w)) = store w
  /\ log (snd (RedisSet.postpare this s w)) = log w.
Proof.
  destruct s as [s|]; [|now split]. rewrite postpare_unfold.
  destruct (Schema.deserializationFn (RedisSet.schema this) s) as [d|];
    [|now split].
  destruct (Schema.upgrade (RedisSet.schema this) d) as [[| | |o]|];
    now split.
Qed.

Lemma mapM_postpare_effects this xs :
  forall w,
    store (snd (mapM (fun x => RedisSet.postpare this (Some x)) xs w))
    = store w
    /\ log (snd (mapM (fun x => RedisSet.postpare this (Some x)) xs w))
       = log w.
Proof.
  induction xs as [|x r IH]; intros w; [now split|].
  cbn [mapM]. unfold bind at 1 3.
  destruct (postpare_effects this (Some x) w) as [Hs Hl].
  destruct (RedisSet.postpare this (Some x) w) as [[v|e] w1];
    cbn [snd] in *; [|now split].
  unfold bind. destruct (IH w1) as [Hs' Hl'].
  destruct (mapM _ r w1) as [[vs|e] w2]; cbn [snd ret] in *;
    split; congruence.
Qed.

(** X6.  A read ([members], [randmember], [union], [intersect], [diff])
    never changes what the store holds, and sends one command, the read
    itself, or none when its operands fail validation: reading refreshes
    no expiry. *)
Theorem reads_send_one_command (r : ReadOperation) (this : RedisSet.t)
    (w : World) :
  store (snd (read r this w)) = store w
  /\ log (snd (read r this w)) = (log w ++ read_command r this)%list.
Proof.
  destruct r as [|n|ops|ops|ops]; cbn [read read_command];
    unfold RedisSet.members, RedisSet.randmember, RedisSet.union,
      RedisSet.intersect, RedisSet.diff;
    unfold bind at 1; try unfold bind at 1; unfold RedisSet.lift;
    try (destruct (RedisSet.validateSetIds this ops) as [keys|e];
         [|cbn; now rewrite app_nil_r]);
    cbn -[mapM RedisSet.postpare];
    match goal with
    | |- context [mapM ?f ?xs ?w0] =>
        destruct (mapM_postpare_effects this xs w0) as [Hs Hl];
        rewrite Hs, Hl; split; reflexivity
    end.
Qed.

Lemma union_of_single s k : Store.union_of s [k] = Store.at_key s k.
Proof. cbn. apply union_empty_r_L. Qed.

Lemma diff_of_single s k : Store.diff_of s [k] = Store.at_key s k.
Proof. cbn. apply difference_empty_L. Qed.

(** Reading the set at a key a second time, with whatever command and
    from whatever world, gives the same documents. *)
Lemma same_members_same_contents this xs w vs w1 :
  mapM (fun x => RedisSet.postpare this (Some x)) xs w = (Ok vs, w1) ->
  forall (that : RedisSet.t) ys w0,
    RedisSet.schema that = RedisSet.schema this ->
    Permutation ys xs ->
    exists vs' w',
      mapM (fun x => RedisSet.postpare that (Some x)) ys w0 = (Ok vs', w')
      /\ Permutation (contents (heap w') vs') (contents (heap w1) vs).
Proof.
  intros Hm that ys w0 Hs Hp.
  destruct (mapM_postpare_contents this xs w vs w1 Hm) as (Hc & Hall & _).
  assert (Hd : forall x, decoded that x = decoded this x)
    by (intros x; unfold decoded; now rewrite Hs).
  assert (Hall' : Forall (fun x => is_Some (decoded that x)) ys).
  { rewrite Hp. eapply Forall_impl; [exact Hall|].
    intros x Hx. cbn. now rewrite Hd. }
  destruct (mapM_postpare_returns that ys Hall' w0) as (vs' & w' & Hm').
  exists vs', w'. split; [exact Hm'|].
  destruct (mapM_postpare_contents that ys w0 vs' w' Hm') as (Hc' & _).
  rewrite Hc', Hc. rewrite (map_ext _ _ Hd). now apply Permutation_map.
Qed.

(** X7.  Without operands, [union], [intersect] and [diff] return the
    documents that [members] returns, in some order: when [members]
    returns, so does each of them, and the contents of what it returns
    are those of what [members] returns, up to order. *)
Theorem group_reads_without_operands (this : RedisSet.t) (w : World)
    (vs : list Val) (w1 : World) :
  RedisSet.members this w = (Ok vs, w1) ->
  (exists vs' w',
     RedisSet.union this [] w = (Ok vs', w')
     /\ Permutation (contents (heap w') vs') (contents (heap w1) vs))
  /\ (exists vs' w',
        RedisSet.intersect this [] w = (Ok vs', w')
        /\ Permutation (contents (heap w') vs') (contents (heap w1) vs))
  /\ (exists vs' w',
        RedisSet.diff this [] w = (Ok vs', w')
        /\ Permutation (contents (heap w') vs') (contents (heap w1) vs)).
Proof.
  intros Hm.
  unfold RedisSet.members, bind, Store.smembers, Store.command in Hm.
  pose proof (same_members_same_contents this _ _ _ _ Hm this) as H.
  unfold RedisSet.union, RedisSet.intersect, RedisSet.diff.
  unfold bind, RedisSet.lift, Store.sunion, Store.sinter, Store.sdiff,
    Store.command.
  cbn [RedisSet.validateSetIds].
  rewrite union_of_single, diff_of_single. cbn [Store.inter_of foldl].
  split; [|split];
    match goal with
    | |- exists vs' w', mapM _ ?ys ?w0 = _ /\ _ =>
        exact (H ys w0 eq_refl (Permutation_refl _))
    end.
Qed.

Lemma group_reads_without_operands_witness :
  exists vs' w',
    RedisSet.union Employee.names [] Employee.world_names = (Ok vs', w')
    /\ Permutation (contents (heap w') vs')
         (contents
            (heap (snd (RedisSet.members Employee.names Employee.world_names)))
            [VStr "ann"; VStr "bob"]).
Proof.
  assert (Hm : RedisSet.members Employee.names Employee.world_names
               = (Ok [VStr "ann"; VStr "bob"],
                  snd (RedisSet.members Employee.names Employee.world_names)))
    by (vm_compute; reflexivity).
  exact (proj1 (group_reads_without_operands Employee.names
                  Employee.world_names _ _ Hm)).
Defined.

(** ** What prepare does to a document *)

(** X8.  The stamping of [prepare] for a version-aware schema: the type
    and the version of the document become those of the schema, whatever
    they were; an id that is neither absent, null nor empty is kept, any
    other becomes the collection's key; every other property is left as
    it is; and stamping twice is stamping once. *)
Theorem stamped_fields (this : RedisSet.t) (o : Obj) :
  Object.get "type" (RedisSet.stamped this o)
  = Some (JStr (Schema.type (RedisSet.schema this)))
  /\ Object.get "version" (RedisSet.stamped this o)
     = Some (JNum (Schema.currentVersion (RedisSet.schema this)))
  /\ (forall v,
        Object.get "id" o = Some v -> v <> JNull -> v <> JStr EmptyString ->
        Object.get "id" (RedisSet.stamped this o) = Some v)
  /\ (Object.get "id" o = None \/ Object.get "id" o = Some JNull
      \/ Object.get "id" o = Some (JStr EmptyString) ->
      Object.get "id" (RedisSet.stamped this o)
      = Some (JStr (RedisSet.id this)))
  /\ (forall k,
        k <> "id" -> k <> "type" -> k <> "version" ->
        Object.get k (RedisSet.stamped this o) = Object.get k o)
  /\ RedisSet.stamped this (RedisSet.stamped this o) = RedisSet.stamped this o.
Proof.
  split; [|split; [|split; [|split; [|split]]]].
  - unfold RedisSet.stamped. rewrite get_set. cbn. apply get_set_eq.
  - unfold RedisSet.stamped. apply get_set_eq.
  - intros v Hv Hn He. unfold RedisSet.stamped, Object.is_nullish.
    rewrite !get_set. cbn. rewrite Hv.
    destruct v as [|n|s]; try congruence; cbn.
    + exact Hv.
    + rewrite bool_decide_eq_false_2 by congruence. exact Hv.
  - intros H. unfold RedisSet.stamped, Object.is_nullish.
    rewrite !get_set. cbn.
    destruct H as [->|[->| ->]]; cbn; apply get_set_eq.
  - intros k Hi Ht Hv. unfold RedisSet.stamped. rewrite !get_set.
    destruct (String.eqb_spec k "version"); [contradiction|].
    destruct (String.eqb_spec k "type"); [contradiction|].
    destruct (Object.is_nullish "id" o
              || bool_decide (Object.get "id" o = Some (JStr EmptyString)));
      [|reflexivity].
    rewrite get_set. now destruct (String.eqb_spec k "id").
  - apply stamped_idempotent.
Qed.

Lemma prepare_plain this x w :
  migrating this = false -> snd (RedisSet.prepare this x w) = w.
Proof.
  unfold migrating, RedisSet.prepare. intros ->.
  unfold bind, ret, Heap.deref. cbn.
  destruct (Heap.resolve (heap w) x) as [d|]; [|reflexivity].
  destruct (Schema.isValid (RedisSet.schema this) d); reflexivity.
Qed.

Lemma mapM_prepare_plain this xs :
  migrating this = false ->
  forall w, snd (mapM (RedisSet.prepare this) xs w) = w.
Proof.
  intros Hm. induction xs as [|x r IH]; intros w; [reflexivity|].
  cbn [mapM]. unfold bind at 1.
  pose proof (prepare_plain this x w Hm) as Hp.
  destruct (RedisSet.prepare this x w) as [[m|e] w1]; cbn [snd] in Hp; subst;
    [|reflexivity].
  unfold bind. specialize (IH w).
  destruct (mapM (RedisSet.prepare this) r w) as [[ms|e] w2];
    cbn [snd] in IH; subst; reflexivity.
Qed.

(** X9.  With a schema that is not version-aware, [add], [rem] and
    [contains] leave every document as it was given: the heap is
    unchanged, whatever the outcome. *)
Theorem plain_schema_never_mutates (this : RedisSet.t)
    (doc : RedisSet.Input) (d : Val) (w : World) :
  migrating this = false ->
  heap (snd (RedisSet.add this doc w)) = heap w
  /\ heap (snd (RedisSet.rem this d w)) = heap w
  /\ heap (snd (RedisSet.contains this d w)) = heap w.
Proof.
  intros Hm.
  assert (Hadd : forall xs,
            heap (snd ((let* ms := mapM (RedisSet.prepare this) xs in
                        let* _ := Store.sadd (RedisSet.id this) ms in
                        let* _ := RedisSet.refreshExpiry this in
                        ret doc) w)) = heap w).
  { intros xs. unfold bind at 1.
    pose proof (mapM_prepare_plain this xs Hm w) as Hp.
    destruct (mapM (RedisSet.prepare this) xs w) as [[ms|e] w1];
      cbn [snd] in Hp; subst; [|reflexivity].
    unfold bind at 1. cbn. unfold bind. rewrite refreshExpiry_run.
    reflexivity. }
  split; [|split].
  - destruct doc as [x|xs]; [|apply Hadd].
    specialize (Hadd [x]).
    destruct x; try reflexivity;
      (etransitivity; [|exact Hadd]);
      do 2 f_equal; cbn [mapM]; unfold RedisSet.add, bind;
      destruct (RedisSet.prepare this _ w) as [[m|e] w1]; reflexivity.
  - unfold RedisSet.rem. unfold bind at 1.
    pose proof (prepare_plain this d w Hm) as Hp.
    destruct (RedisSet.prepare this d w) as [[m|e] w1];
      cbn [snd] in Hp; subst; [|reflexivity].
    unfold bind at 1. cbn. unfold bind. rewrite refreshExpiry_run.
    reflexivity.
  - unfold RedisSet.contains, bind.
    pose proof (prepare_plain this d w Hm) as Hp.
    destruct (RedisSet.prepare this d w) as [[m|e] w1];
      cbn [snd] in Hp; subst; reflexivity.
Qed.

Lemma plain_schema_never_mutates_witness :
  heap (snd (RedisSet.add Employee.names (RedisSet.One (VStr "ann"))
               Employee.world1))
  = heap Employee.world1.
Proof.
  apply (plain_schema_never_mutates Employee.names
           (RedisSet.One (VStr "ann")) (VStr "ann") Employee.world1).
  reflexivity.
Defined.

(** X10.  [rem] and [contains] of a document that fails validation raise
    DocumentValidationError before anything is sent: the store and the
    commands sent are what they were. *)
Theorem invalid_document_sends_nothing (this : RedisSet.t) (x : Val)
    (d : Doc) (w : World) :
  prepared this (heap w) x = Some d ->
  Schema.isValid (RedisSet.schema this) d = false ->
  (is_DocumentValidationError (fst (RedisSet.rem this x w)) = true
   /\ log (snd (RedisSet.rem this x w)) = log w
   /\ store (snd (RedisSet.rem this x w)) = store w)
  /\ (is_DocumentValidationError (fst (RedisSet.contains this x w)) = true
      /\ log (snd (RedisSet.contains this x w)) = log w
      /\ store (snd (RedisSet.contains this x w)) = store w).
Proof.
  intros Hp Hv.
  assert (Hr : RedisSet.rem this x w
               = (Throw (DocumentValidationError
                           ("Can't create new object, schema error: "
                            +:+ Schema.errors (RedisSet.schema this) d)),
                  with_heap w (heap_after_prepare this (heap w) x))).
  { unfold RedisSet.rem. unfold bind at 1.
    now rewrite (prepare_run this x w d Hp), Hv. }
  assert (Hc : RedisSet.contains this x w
               = (Throw (DocumentValidationError
                           ("Can't create new object, schema error: "
                            +:+ Schema.errors (RedisSet.schema this) d)),
                  with_heap w (heap_after_prepare this (heap w) x))).
  { unfold RedisSet.contains. unfold bind at 1.
    now rewrite (prepare_run this x w d Hp), Hv. }
  rewrite Hr, Hc. cbn. repeat split.
Qed.

Lemma invalid_document_sends_nothing_witness :
  is_DocumentValidationError
    (fst (RedisSet.rem Employee.names (VNum 7) Employee.world_names)) = true
  /\ log (snd (RedisSet.rem Employee.names (VNum 7) Employee.world_names))
     = log Employee.world_names
  /\ store (snd (RedisSet.rem Employee.names (VNum 7) Employee.world_names))
     = store Employee.world_names.
Proof.
  apply (invalid_document_sends_nothing Employee.names (VNum 7) (DNum 7)
           Employee.world_names); reflexivity.
Defined.

(** ** Adding, looking up, counting and deleting *)

Lemma at_key_insert (s : gmap string (gset string)) k X :
  Store.at_key (<[k := X]> s) k = X.
Proof. unfold Store.at_key. now rewrite lookup_insert_eq. Qed.

Lemma list_to_set_single (m : string) :
  (list_to_set [m] : gset string) = {[m]}.
Proof. cbn. apply union_empty_r_L. Qed.

(** [add] of one valid document. *)
Lemma add_one_run this d doc w :
  d <> VNull ->
  prepared this (heap w) d = Some doc ->
  Schema.isValid (RedisSet.schema this) doc = true ->
  RedisSet.add this (RedisSet.One d) w
  = (Ok (RedisSet.One d),
     mkWorld (heap_after_prepare this (heap w) d)
       (<[RedisSet.id this :=
            Store.at_key (store w) (RedisSet.id this)
            ∪ {[Schema.serializationFn (RedisSet.schema this) doc]}]>
          (store w))
       ((log w
         ++ [Tance.Sadd (RedisSet.id this)
               [Schema.serializationFn (RedisSet.schema this) doc]])
        ++ expiry_commands this)
       (draws w) (uuids w) (sample w)).
Proof.
  intros Hnn Hp Hv.
  assert (Hdocs : Forall (fun x => is_Some (prepared this (heap w) x))
                    (elements_of (RedisSet.One d))).
  { constructor; [|constructor]. rewrite Hp. eauto. }
  assert (Hne : RedisSet.One d <> RedisSet.One VNull) by congruence.
  pose proof (add_run this (RedisSet.One d) w Hne Hdocs) as Hadd.
  cbn [elements_of forallb map foldl] in Hadd.
  unfold valid_in, serialized in Hadd. rewrite Hp, Hv in Hadd.
  cbn [andb] in Hadd. rewrite list_to_set_single in Hadd. exact Hadd.
Qed.

Lemma contains_run this x w d :
  prepared this (heap w) x = Some d ->
  Schema.isValid (RedisSet.schema this) d = true ->
  RedisSet.contains this x w
  = (Ok (if decide (Schema.serializationFn (RedisSet.schema this) d
                    ∈ Store.at_key (store w) (RedisSet.id this))
         then 1 else 0),
     mkWorld (heap_after_prepare this (heap w) x) (store w)
       (log w
        ++ [Tance.Sismember (RedisSet.id this)
              (Schema.serializationFn (RedisSet.schema this) d)])
       (draws w) (uuids w) (sample w)).
Proof.
  intros Hp Hv. unfold RedisSet.contains. unfold bind.
  rewrite (prepare_run this x w d Hp), Hv. reflexivity.
Qed.

(** X11.  A valid document that has been added is contained: [contains]
    answers 1 after [add], and 0 once the document has been removed
    again. *)
Theorem add_then_contains (this : RedisSet.t) (d : Val) (doc : Doc)
    (w : World) :
  d <> VNull ->
  prepared this (heap w) d = Some doc ->
  Schema.isValid (RedisSet.schema this) doc = true ->
  fst (RedisSet.contains this d (snd (RedisSet.add this (RedisSet.One d) w)))
  = Ok 1
  /\ fst (RedisSet.contains this d
            (snd (RedisSet.rem this d
                    (snd (RedisSet.add this (RedisSet.One d) w)))))
     = Ok 0.
Proof.
  intros Hnn Hp Hv. rewrite (add_one_run this d doc w Hnn Hp Hv).
  cbn [snd].
  set (m := Schema.serializationFn (RedisSet.schema this) doc).
  match goal with
  | |- context [RedisSet.rem this d ?w1] =>
      assert (Hp1 : prepared this (heap w1) d = Some doc)
        by (cbn [heap]; now rewrite prepared_after_prepare);
      rewrite (rem_run this d w1 doc Hp1 Hv);
      rewrite (contains_run this d w1 doc Hp1 Hv)
  end.
  cbn [fst snd heap store]. fold m. split.
  - rewrite at_key_insert. rewrite decide_True; [reflexivity|].
    apply elem_of_union_r. now apply elem_of_singleton.
  - match goal with
    | |- context [RedisSet.contains this d ?w2] =>
        assert (Hp2 : prepared this (heap w2) d = Some doc)
          by (cbn [heap]; now rewrite !prepared_after_prepare);
        rewrite (contains_run this d w2 doc Hp2 Hv)
    end.
    cbn [fst store]. fold m. rewrite !at_key_insert.
    rewrite decide_False; [reflexivity|]. apply gset_not_in_removed.
Qed.

Lemma add_then_contains_witness :
  fst (RedisSet.contains Employee.setA (VObj 0)
         (snd (RedisSet.add Employee.setA (RedisSet.One (VObj 0))
                 Employee.world1)))
  = Ok 1.
Proof.
  assert (Hnn : VObj 0 <> VNull) by discriminate.
  exact (proj1 (add_then_contains Employee.setA (VObj 0)
                  (DObj Employee.storedEmployee) Employee.world1 Hnn
                  eq_refl eq_refl)).
Defined.

Lemma gset_union_twice (s l : gset string) : s ∪ l ∪ l = s ∪ l.
Proof.
  apply set_eq. intros x. rewrite !elem_of_union. tauto.
Qed.

(** X12.  Adding a valid document a second time changes nothing in the
    store, and [count] after it is the number of members the collection
    had, the document's member included once. *)
Theorem add_twice_is_add_once (this : RedisSet.t) (d : Val) (doc : Doc)
    (obj : Val) (w : World) :
  d <> VNull ->
  prepared this (heap w) d = Some doc ->
  Schema.isValid (RedisSet.schema this) doc = true ->
  store (snd (RedisSet.add this (RedisSet.One d)
                (snd (RedisSet.add this (RedisSet.One d) w))))
  = store (snd (RedisSet.add this (RedisSet.One d) w))
  /\ fst (RedisSet.count this obj
            (snd (RedisSet.add this (RedisSet.One d)
                    (snd (RedisSet.add this (RedisSet.One d) w)))))
     = Ok (Z.of_nat
             (size (Store.at_key (store w) (RedisSet.id this)
                    ∪ {[Schema.serializationFn (RedisSet.schema this) doc]}))).
Proof.
  intros Hnn Hp Hv. rewrite (add_one_run this d doc w Hnn Hp Hv).
  cbn [snd].
  match goal with
  | |- context [RedisSet.add this (RedisSet.One d) ?w1] =>
      assert (Hp1 : prepared this (heap w1) d = Some doc)
        by (cbn [heap]; now rewrite prepared_after_prepare);
      rewrite (add_one_run this d doc w1 Hnn Hp1 Hv)
  end.
  cbn [snd store]. rewrite at_key_insert, gset_union_twice, insert_insert_eq.
  split; [reflexivity|].
  unfold RedisSet.count, Store.scard, Store.command. cbn [fst store].
  now rewrite at_key_insert.
Qed.

Lemma add_twice_is_add_once_witness :
  store (snd (RedisSet.add Employee.setA (RedisSet.One (VObj 0))
                (snd (RedisSet.add Employee.setA (RedisSet.One (VObj 0))
                        Employee.world1))))
  = store (snd (RedisSet.add Employee.setA (RedisSet.One (VObj 0))
                  Employee.world1)).
Proof.
  assert (Hnn : VObj 0 <> VNull) by discriminate.
  exact (proj1 (add_twice_is_add_once Employee.setA (VObj 0)
                  (DObj Employee.storedEmployee) VNull Employee.world1 Hnn
                  eq_refl eq_refl)).
Defined.

(** X13.  [delete] sends one [del] and no [expire]; it answers 1 when the
    key existed and 0 when it did not.  Afterwards the collection is
    empty: [members] returns no document and [count] 0, and every other
    key holds what it held. *)
Theorem delete_empties_collection (this : RedisSet.t) (obj : Val)
    (w : World) :
  fst (RedisSet.delete this w)
  = Ok (if decide (is_Some (store w !! RedisSet.id this)) then 1 else 0)
  /\ log (snd (RedisSet.delete this w))
     = (log w ++ [Tance.Del (RedisSet.id this)])%list
  /\ fst (RedisSet.members this (snd (RedisSet.delete this w))) = Ok []
  /\ fst (RedisSet.count this obj (snd (RedisSet.delete this w))) = Ok 0
  /\ (forall k, k <> RedisSet.id this ->
        store (snd (RedisSet.delete this w)) !! k = store w !! k).
Proof.
  unfold RedisSet.delete, Store.del, Store.command. cbn [fst snd log store].
  assert (He : Store.at_key (delete (RedisSet.id this) (store w))
                 (RedisSet.id this) = ∅).
  { unfold Store.at_key. now rewrite lookup_delete_eq. }
  repeat split.
  - unfold RedisSet.members, bind, Store.smembers, Store.command.
    cbn [store]. rewrite He, elements_empty. reflexivity.
  - unfold RedisSet.count, Store.scard, Store.command. cbn [fst store].
    rewrite He. reflexivity.
  - intros k Hk. now rewrite lookup_delete_ne.
Qed.

(** X14.  A valid document added to an empty collection is what [members]
    then returns, as one fresh value holding the contents the document
    was stored with, provided the schema decodes what it encoded and
    leaves the document as it is when upgrading. *)
Theorem add_then_members (this : RedisSet.t) (d : Val) (doc : Doc)
    (w : World) :
  d <> VNull ->
  prepared this (heap w) d = Some doc ->
  Schema.isValid (RedisSet.schema this) doc = true ->
  Store.at_key (store w) (RedisSet.id this) = ∅ ->
  Schema.deserializationFn (RedisSet.schema this)
    (Schema.serializationFn (RedisSet.schema this) doc) = Some doc ->
  Schema.upgrade (RedisSet.schema this) doc = Some doc ->
  exists v w',
    RedisSet.members this (snd (RedisSet.add this (RedisSet.One d) w))
    = (Ok [v], w')
    /\ Heap.resolve (heap w') v = Some doc.
Proof.
  intros Hnn Hp Hv Hempty Hdec Hup.
  rewrite (add_one_run this d doc w Hnn Hp Hv). cbn [snd].
  unfold RedisSet.members. unfold bind at 1.
  unfold Store.smembers, Store.command. cbn [store heap log draws uuids sample].
  rewrite at_key_insert, Hempty, union_empty_l_L, elements_singleton.
  cbn [mapM]. unfold bind at 1. rewrite postpare_unfold, Hdec, Hup.
  match goal with
  | |- context [Heap.fresh doc ?w1] =>
      destruct (Heap.fresh doc w1) as [[v|e] w'] eqn:Hf;
      [|destruct doc; discriminate]
  end.
  destruct (fresh_run _ _ _ _ Hf) as (Hr & _).
  exists v, w'. split; [reflexivity | exact Hr].
Qed.

Lemma add_then_members_witness :
  exists v w',
    RedisSet.members Employee.setA
      (snd (RedisSet.add Employee.setA (RedisSet.One (VObj 0))
              Employee.world1))
    = (Ok [v], w')
    /\ Heap.resolve (heap w') v = Some (DObj Employee.storedEmployee).
Proof.
  assert (Hnn : VObj 0 <> VNull) by discriminate.
  assert (He : Store.at_key (store Employee.world1)
                 (RedisSet.id Employee.setA) = ∅).
  { unfold Store.at_key. cbn [Employee.world1 store].
    now rewrite lookup_empty. }
  exact (add_then_members Employee.setA (VObj 0)
           (DObj Employee.storedEmployee) Employee.world1 Hnn eq_refl
           eq_refl He eq_refl eq_refl).
Defined.

(** ** The outcome of modify *)

Lemma forEach_detached_ok {A B} (f : A -> M B) xs :
  forall w, fst (forEach (fun x => detached (f x)) xs w) = Ok tt.
Proof.
  induction xs as [|x r IH]; intros w; [reflexivity|].
  cbn [forEach]. unfold bind, detached. apply IH.
Qed.

Lemma mapM_postpare_resolves this xs :
  forall w vs w',
    mapM (fun x => RedisSet.postpare this (Some x)) xs w = (Ok vs, w') ->
    Forall (fun v => is_Some (Heap.resolve (heap w') v)) vs
    /\ exists ext, heap w' = (heap w ++ ext)%list.
Proof.
  induction xs as [|x r IH]; intros w vs w'.
  - cbn. intros [= <- <-]. split; [constructor|].
    exists []. now rewrite app_nil_r.
  - cbn [mapM]. unfold bind at 1. rewrite postpare_unfold.
    destruct (Schema.deserializationFn (RedisSet.schema this) x) as [d|];
      [|discriminate].
    destruct (Schema.upgrade (RedisSet.schema this) d) as [d'|];
      [|discriminate].
    destruct (Heap.fresh d' w) as [[v|e] w1] eqn:Hf; [|discriminate].
    unfold bind at 1.
    destruct (mapM _ r w1) as [[vs'|e] w2] eqn:E2; [|discriminate].
    cbn. intros [= <- <-].
    destruct (fresh_run _ _ _ _ Hf) as (Hr & (ext1 & H1) & _).
    destruct (IH w1 vs' w2 E2) as (Hall & ext2 & H2).
    split.
    + constructor; [|exact Hall].
      exists d'. rewrite H2. now apply resolve_app.
    + exists (ext1 ++ ext2)%list. rewrite H2, H1. now rewrite app_assoc.
Qed.

Lemma mapM_json_copy_ok vs :
  forall w,
    Forall (fun v => is_Some (Heap.resolve (heap w) v)) vs ->
    exists copy w', mapM RedisSet.json_copy vs w = (Ok copy, w').
Proof.
  induction vs as [|v r IH]; intros w H; [cbn; eauto|].
  inversion H as [|? ? [d Hd] Hr]; subst.
  cbn [mapM]. unfold bind at 1. unfold RedisSet.json_copy at 1.
  unfold bind at 1, Heap.deref. rewrite Hd.
  destruct (Heap.fresh d w) as [[v'|e] w1] eqn:Hf;
    [|destruct d; discriminate].
  destruct (fresh_run _ _ _ _ Hf) as (_ & (ext & Hext) & _).
  destruct (IH w1) as (copy & w' & Hc).
  { eapply Forall_impl; [exact Hr|]. intros y [dy Hy]. cbn.
    exists dy. rewrite Hext. now apply resolve_app. }
  unfold bind. rewrite Hc. eauto.
Qed.

(** X15.  Once [members] has returned, the deep copy of the snapshot never
    fails, and the outcome of [modify] is that of [changeFn] alone: when
    [changeFn] returns a set, [modify] returns the snapshot and that set,
    whatever the [rem] and [add] calls it starts do; when [changeFn]
    throws, [modify] throws the same error. *)
Theorem modify_outcome_is_changeFn_outcome (this : RedisSet.t)
    (changeFn : list Val -> M (list Val)) (w : World) (list : list Val)
    (w1 : World) :
  RedisSet.members this w = (Ok list, w1) ->
  exists copy w2,
    mapM RedisSet.json_copy list w1 = (Ok copy, w2)
    /\ (forall changed w3,
          changeFn (RedisSet.Set_from [] copy) w2 = (Ok changed, w3) ->
          fst (RedisSet.modify this changeFn w)
          = Ok (RedisSet.Set_from [] list, RedisSet.Set_from [] changed))
    /\ (forall e w3,
          changeFn (RedisSet.Set_from [] copy) w2 = (Throw e, w3) ->
          fst (RedisSet.modify this changeFn w) = Throw e).
Proof.
  intros Hm.
  assert (Hres : Forall (fun v => is_Some (Heap.resolve (heap w1) v)) list).
  { unfold RedisSet.members, bind, Store.smembers, Store.command in Hm.
    now apply mapM_postpare_resolves in Hm. }
  destruct (mapM_json_copy_ok list w1 Hres) as (copy & w2 & Hc).
  exists copy, w2. split; [exact Hc|]. split.
  - intros changed w3 Hf. unfold RedisSet.modify.
    unfold bind at 1. rewrite Hm. unfold bind at 1. rewrite Hc.
    unfold bind at 1. rewrite Hf. unfold bind at 1.
    match goal with
    | |- context [forEach ?f ?xs ?w0] =>
        pose proof (forEach_detached_ok (RedisSet.rem this) xs w0) as H1;
        destruct (forEach f xs w0) as [[[]|e] w4]; [|discriminate]
    end.
    unfold bind at 1.
    match goal with
    | |- context [forEach ?f ?xs ?w0] =>
        pose proof (forEach_detached_ok
                      (fun x => RedisSet.add this (RedisSet.One x)) xs w0)
          as H2;
        destruct (forEach f xs w0) as [[[]|e] w5]; [|discriminate]
    end.
    unfold bind. rewrite refreshExpiry_run. reflexivity.
  - intros e w3 Hf. unfold RedisSet.modify.
    unfold bind at 1. rewrite Hm. unfold bind at 1. rewrite Hc.
    unfold bind at 1. rewrite Hf. reflexivity.
Qed.

Lemma modify_outcome_is_changeFn_outcome_witness :
  fst (RedisSet.modify Employee.names Employee.rename Employee.world_names)
  = Ok ([VStr "ann"; VStr "bob"], [VStr "bob"; VStr "cat"]).
Proof.
  assert (Hm : RedisSet.members Employee.names Employee.world_names
               = (Ok [VStr "ann"; VStr "bob"],
                  snd (RedisSet.members Employee.names Employee.world_names)))
    by (vm_compute; reflexivity).
  destruct (modify_outcome_is_changeFn_outcome Employee.names Employee.rename
              Employee.world_names _ _ Hm) as (copy & w2 & Hc & Hok & _).
  assert (Hcopy : copy = [VStr "ann"; VStr "bob"]
                  /\ w2 = snd (RedisSet.members Employee.names
                                 Employee.world_names)).
  { vm_compute in Hc. injection Hc as <- <-. split; reflexivity. }
  destruct Hcopy as [-> ->].
  apply (Hok [VStr "bob"; VStr "cat"]
           (snd (RedisSet.members Employee.names Employee.world_names))).
  vm_compute. reflexivity.
Defined.

(** ** Removing *)

Lemma gset_remove_absent (s : gset string) (m : string) :
  m ∉ s -> s ∖ {[m]} = s.
Proof.
  intros H. apply set_eq. intros x.
  rewrite elem_of_difference, elem_of_singleton. split; [tauto|].
  intros Hx. split; [exact Hx|]. intros ->. contradiction.
Qed.

(** X16.  [rem] of a valid document returns the document, sends one
    [srem] of the member it is stored as, and after it one [expire] when
    the collection has a number other than 0 as expirySeconds, none
    otherwise.  The member is then gone from the collection's set, a
    set that did not hold it is as it was, and no other key is
    touched. *)
Theorem rem_removes_member (this : RedisSet.t) (x : Val) (d : Doc)
    (w : World) :
  prepared this (heap w) x = Some d ->
  Schema.isValid (RedisSet.schema this) d = true ->
  fst (RedisSet.rem this x w) = Ok x
  /\ log (snd (RedisSet.rem this x w))
     = (log w
        ++ Tance.Srem (RedisSet.id this)
             (Schema.serializationFn (RedisSet.schema this) d)
           :: match RedisSet.expirySeconds this with
              | Some n => if n =? 0 then []
                          else [Tance.Expire (RedisSet.id this) n]
              | None => []
              end)%list
  /\ Store.at_key (store (snd (RedisSet.rem this x w))) (RedisSet.id this)
     = Store.at_key (store w) (RedisSet.id this)
       ∖ {[Schema.serializationFn (RedisSet.schema this) d]}
  /\ (Schema.serializationFn (RedisSet.schema this) d
      ∉ Store.at_key (store w) (RedisSet.id this) ->
      Store.at_key (store (snd (RedisSet.rem this x w))) (RedisSet.id this)
      = Store.at_key (store w) (RedisSet.id this))
  /\ (forall k, k <> RedisSet.id this ->
        store (snd (RedisSet.rem this x w)) !! k = store w !! k).
Proof.
  intros Hp Hv. rewrite (rem_run this x w d Hp Hv).
  cbn [fst snd log store]. rewrite at_key_insert. repeat split.
  - unfold expiry_commands. now rewrite <- app_assoc.
  - apply gset_remove_absent.
  - intros k Hk. now rewrite lookup_insert_ne.
Qed.

Lemma rem_removes_member_witness :
  log (snd (RedisSet.rem Employee.names (VStr "ann") Employee.world_names))
  = [Tance.Srem "set-{string-ns1}-n" "ann";
     Tance.Expire "set-{string-ns1}-n" 60].
Proof.
  exact (proj1 (proj2 (rem_removes_member Employee.names (VStr "ann")
                         (DStr "ann") Employee.world_names eq_refl eq_refl))).
Defined.

(** ** Copies *)

(** X17.  A copy reads back as its source: when [members] on the source
    returns, [members] on the handle that [copyTo] returns for a supplied
    id returns, right after the copy, the same documents, in some
    order. *)
Theorem copy_reads_as_source (dflt : option Z -> Schema.t)
    (this : RedisSet.t) (i : string) (w : World) (vs : list Val)
    (w1 : World) :
  i <> EmptyString ->
  RedisSet.members this w = (Ok vs, w1) ->
  exists h w',
    RedisSet.copyTo dflt this (Some i) w = (Ok h, w')
    /\ exists vs' w1',
         RedisSet.members h w' = (Ok vs', w1')
         /\ Permutation (contents (heap w1') vs') (contents (heap w1) vs).
Proof.
  intros Hne Hm.
  assert (Hs : supplied (Some i) = Some i).
  { cbn. now destruct (String.eqb_spec i EmptyString). }
  unfold RedisSet.members, bind, Store.smembers, Store.command in Hm.
  unfold RedisSet.copyTo. unfold bind at 1.
  rewrite sibling_exact, Hs. unfold bind, Store.sinterstore, Store.command.
  cbn [RedisSet.id store log heap draws uuids sample Store.inter_of].
  eexists _, _. split; [reflexivity|].
  unfold RedisSet.members, bind, Store.smembers, Store.command.
  cbn [RedisSet.id store log heap draws uuids sample].
  rewrite at_key_insert.
  apply (same_members_same_contents this _ _ _ _ Hm); reflexivity.
Qed.

Lemma copy_reads_as_source_witness :
  exists h w',
    RedisSet.copyTo Employee.stringSchema Employee.names (Some "backup")
      Employee.world_names = (Ok h, w')
    /\ exists vs' w1',
         RedisSet.members h w' = (Ok vs', w1')
         /\ Permutation (contents (heap w1') vs')
              (contents
                 (heap (snd (RedisSet.members Employee.names
                               Employee.world_names)))
                 [VStr "ann"; VStr "bob"]).
Proof.
  assert (Hne : "backup" <> EmptyString) by discriminate.
  assert (Hm : RedisSet.members Employee.names Employee.world_names
               = (Ok [VStr "ann"; VStr "bob"],
                  snd (RedisSet.members Employee.names Employee.world_names)))
    by (vm_compute; reflexivity).
  exact (copy_reads_as_source Employee.stringSchema Employee.names "backup"
           Employee.world_names _ _ Hne Hm).
Defined.
